(** * pyltr.metrics._metrics: the generic [Metric] algorithms

    A shallow embedding of [pyltr/metrics/_metrics.py] (class [Metric]):
    swap deltas, lambdas/deltas, the per-query mean and the random baseline.

    Conventions of the embedding.
    - numpy floats are idealised as real numbers ([R]); [scipy.special.expit]
      is the logistic function [1 / (1 + exp (- x))]. Where rounding decides
      a statement, the methods are read again over binary64 numbers
      ([Binary64]).
    - numpy arrays that a caller hands in are objects of a store ([heap]),
      addressed by a reference, because [calc_swap_deltas] writes into its
      argument; arrays that a method creates and returns ([deltas],
      [lambdas]) are plain values.
    - a Python exception is a [Raise e] result; a method is a computation in
      the monad [M] that threads the store and stops at the first exception. *)

From stdpp Require Import gmap list.
From Stdlib Require Import ZArith Reals Lra Lia.
From Stdlib Require Floats.

Abbreviation loc := nat (only parsing).
Abbreviation qid := Z (only parsing).
Abbreviation heap := (gmap nat (list R)) (only parsing).
Abbreviation matrix := (list (list R)) (only parsing).

(** ** Exceptions and the store monad *)

Inductive exn : Type :=
| NotImplementedError
| IndexError
| AssertionError
| GroupingError
| MetricError (code : nat)   (* whatever else a subclass's evaluate raises *)
| DanglingRef.               (* a reference that is not in the store; Python has none *)

Inductive result (A : Type) : Type :=
| Ok (a : A)
| Raise (e : exn).
Arguments Ok {A} a.
Arguments Raise {A} e.

Definition is_ok {A} (x : result A) : Prop :=
  match x with Ok _ => True | Raise _ => False end.

Definition M (A : Type) : Type := heap -> heap * result A.

Definition ret {A} (a : A) : M A := fun h => (h, Ok a).
Definition raise {A} (e : exn) : M A := fun h => (h, Raise e).
Definition lift {A} (x : result A) : M A := fun h => (h, x).
Definition bind {A B} (c : M A) (k : A -> M B) : M B :=
  fun h =>
    match c h with
    | (h', Ok a) => k a h'
    | (h', Raise e) => (h', Raise e)
    end.

Notation "'let*' x ':=' c 'in' k" := (bind c (fun x => k))
  (at level 10, x pattern, c at level 100, k at level 200, only parsing).

(** [for x in xs: acc = body(x, acc)], stopping at the first exception. *)
Fixpoint for_each {A} (xs : list nat) (body : nat -> A -> M A) (acc : A) : M A :=
  match xs with
  | [] => ret acc
  | x :: xs' => let* acc' := body x acc in for_each xs' body acc'
  end.

(** Python's [range(lo, hi)]. *)
Definition range (lo hi : nat) : list nat := seq lo (hi - lo).

(** ** Arrays in the store *)

Definition load (r : loc) : M (list R) :=
  fun h => match h !! r with
           | Some a => (h, Ok a)
           | None => (h, Raise DanglingRef)
           end.

(** [a[i]] for [0 <= i]; numpy raises IndexError past the end. *)
Definition getitem (r : loc) (i : nat) : M R :=
  let* a := load r in
  match a !! i with
  | Some x => ret x
  | None => raise IndexError
  end.

(** [a[i] = x], in place. *)
Definition setitem (r : loc) (i : nat) (x : R) : M unit :=
  fun h => match h !! r with
           | Some a =>
               if decide (i < length a)
               then (<[r := <[i := x]> a]> h, Ok tt)
               else (h, Raise IndexError)
           | None => (h, Raise DanglingRef)
           end.

(** A new array object ([np.zeros], [np.copy], [a[idx]] with an index array). *)
Definition alloc (a : list R) : M loc :=
  fun h => let r := fresh (dom h) in (<[r := a]> h, Ok r).

(** ** Arrays that are local values *)

Definition zeros (n : nat) : list R := replicate n 0%R.
Definition zeros2 (n k : nat) : matrix := replicate n (zeros k).

(** [v[i]] and [v[i] = f(v[i])] on a local vector. *)
Definition vec_get (v : list R) (i : nat) : result R :=
  match v !! i with
  | Some x => Ok x
  | None => Raise IndexError
  end.

Definition vec_upd (v : list R) (i : nat) (f : R -> R) : result (list R) :=
  match v !! i with
  | Some x => Ok (<[i := f x]> v)
  | None => Raise IndexError
  end.

(** [d[i, j]] and [d[i, j] = x] on a local matrix. *)
Definition mat_get (d : matrix) (i j : nat) : result R :=
  match d !! i with
  | Some row => vec_get row j
  | None => Raise IndexError
  end.

Definition mat_set (d : matrix) (i j : nat) (x : R) : result matrix :=
  match d !! i with
  | Some row =>
      if decide (j < length row)
      then Ok (<[i := <[j := x]> row]> d)
      else Raise IndexError
  | None => Raise IndexError
  end.

(** ** The metric interface *)

(** [evaluate] reads the array it is given and returns a float or raises;
    [max_k] is an int or None. *)
Record Metric : Type := {
  evaluate : qid -> list R -> result R;
  max_k : option Z
}.

(** The base class: [evaluate] raises NotImplementedError, [max_k] is None. *)
Definition base_metric : Metric :=
  {| evaluate := fun _ _ => Raise NotImplementedError; max_k := None |}.

(** A metric whose [evaluate] always returns. *)
Definition total_metric (ev : qid -> list R -> R) (mk : option Z) : Metric :=
  {| evaluate := fun q t => Ok (ev q t); max_k := mk |}.

(** ** calc_swap_deltas *)

(** Lines 61-63 and the bound of [range(max_k)]: a negative cutoff gives an
    empty range. *)
Definition effective_k (m : Metric) (n : nat) : nat :=
  match max_k m with
  | None => n
  | Some k => if (Z.of_nat n <? k)%Z then n else Z.to_nat k
  end.

(** [tmp = targets[i]; targets[i] = targets[j]; targets[j] = tmp] *)
Definition swap_items (r : loc) (i j : nat) : M unit :=
  let* tmp := getitem r i in
  let* tj := getitem r j in
  let* _ := setitem r i tj in
  setitem r j tmp.

(** The body of the inner loop, lines 67-73. *)
Definition swap_delta_step (m : Metric) (q : qid) (r : loc) (original : R)
    (i j : nat) (deltas : matrix) : M matrix :=
  let* _ := swap_items r i j in
  let* t := load r in
  let* v := lift (evaluate m q t) in
  let* deltas' := lift (mat_set deltas i j (v - original)%R) in
  let* _ := swap_items r i j in
  ret deltas'.

Definition calc_swap_deltas (m : Metric) (q : qid) (targets : loc) : M matrix :=
  let* t0 := load targets in
  let n_targets := length t0 in
  let deltas := zeros2 n_targets n_targets in
  let* original := lift (evaluate m q t0) in
  let k := effective_k m n_targets in
  for_each (range 0 k)
    (fun i => for_each (range (i + 1) n_targets)
                (swap_delta_step m q targets original i))
    deltas.

(** ** calc_lambdas_deltas *)

#[global] Instance R_eq_dec : EqDecision R := Req_dec_T.
#[global] Instance Rlt_decision (x y : R) : Decision (x < y)%R := Rlt_dec x y.

(** [scipy.special.expit] *)
Definition expit (x : R) : R := (/ (1 + exp (- x)))%R.

(** [assert c] *)
Definition assert_that (c : Prop) `{Decision c} : result unit :=
  if decide c then Ok tt else Raise AssertionError.

(** [positions[i]] on the index array of the sorting utility. *)
Definition idx_get (positions : list nat) (i : nat) : result nat :=
  match positions !! i with
  | Some a => Ok a
  | None => Raise IndexError
  end.

(** [t[idx]] with an index array: a new array, IndexError when an index is
    past the end. *)
Fixpoint fancy_index (t : list R) (idx : list nat) : result (list R) :=
  match idx with
  | [] => Ok []
  | p :: ps =>
      match t !! p, fancy_index t ps with
      | Some x, Ok xs => Ok (x :: xs)
      | _, _ => Raise IndexError
      end
  end.

(** The body of the inner loop, lines 112-137. [acc] is [(lambdas, deltas)]. *)
Definition lambda_step (actual : loc) (positions : list nat) (preds : loc)
    (swap_deltas : matrix) (i j : nat) (acc : list R * list R) : M (list R * list R) :=
  let* ai := getitem actual i in
  let* aj := getitem actual j in
  if decide (ai = aj) then ret acc else
  let* delta_metric := lift (mat_get swap_deltas i j) in
  if decide (delta_metric = 0%R) then ret acc else
  let* a := lift (idx_get positions i) in
  let* b := lift (idx_get positions j) in
  let* ai := getitem actual i in
  let* aj := getitem actual j in
  let* br :=
    (if decide (ai < aj)%R then
       let* _ := lift (assert_that (0 < delta_metric)%R) in
       let* pa := getitem preds a in
       let* pb := getitem preds b in
       let logistic := expit (pa - pb) in
       let l := (logistic * delta_metric)%R in
       let* lambdas := lift (vec_upd acc.1 a (fun x => x - l)%R) in
       let* lambdas := lift (vec_upd lambdas b (fun x => x + l)%R) in
       ret (logistic, l, lambdas)
     else
       let* _ := lift (assert_that (delta_metric < 0)%R) in
       let* pb := getitem preds b in
       let* pa := getitem preds a in
       let logistic := expit (pb - pa) in
       let l := (logistic * - delta_metric)%R in
       let* lambdas := lift (vec_upd acc.1 a (fun x => x + l)%R) in
       let* lambdas := lift (vec_upd lambdas b (fun x => x - l)%R) in
       ret (logistic, l, lambdas)) in
  let '(logistic, l, lambdas) := br in
  let hess := ((1 - logistic) * l)%R in
  let* deltas := lift (vec_upd acc.2 a (fun x => x + hess)%R) in
  let* deltas := lift (vec_upd deltas b (fun x => x + hess)%R) in
  ret (lambdas, deltas).

Section SortingUtility.
(** [pyltr.util.sort] is another module of the package: the index
    permutation and the sorted array it computes are parameters. *)
Variable get_sorted_y_positions : list R -> list R -> list nat.
Variable get_sorted_y : list R -> list R -> result (list R).

Definition calc_lambdas_deltas (m : Metric) (q : qid) (targets preds : loc)
    : M (list R * list R) :=
  let* t := load targets in
  let* p := load preds in
  let ns := length t in
  let positions := get_sorted_y_positions t p in
  let* actual_items := lift (fancy_index t positions) in
  let* actual := alloc actual_items in
  let* swap_deltas := calc_swap_deltas m q actual in
  let k := effective_k m ns in
  for_each (range 0 k)
    (fun i => for_each (range (i + 1) ns)
                (lambda_step actual positions preds swap_deltas i))
    (zeros ns, zeros ns).

(** [evaluate_preds]: nothing is written, the arrays are values. *)
Definition evaluate_preds (m : Metric) (q : qid) (targets preds : list R) : result R :=
  match get_sorted_y targets preds with
  | Ok sorted => evaluate m q sorted
  | Raise e => Raise e
  end.
End SortingUtility.

(** ** The aggregator: calc_mean *)

Definition sum_list (l : list R) : R := foldr Rplus 0%R l.

(** [np.mean] of a list of floats. On the empty list numpy returns nan; the
    division of the reals gives 0 there, and the statements about means are
    made for lists that are not empty. *)
Definition mean (l : list R) : R := (sum_list l / INR (length l))%R.

(** [a[lo:hi]] *)
Definition slice {A} (lo hi : nat) (l : list A) : list A := take (hi - lo) (drop lo l).

(** A list comprehension whose element expression can raise. *)
Fixpoint try_map {A B} (f : A -> result B) (l : list A) : result (list B) :=
  match l with
  | [] => Ok []
  | x :: l' =>
      match f x with
      | Ok y => match try_map f l' with
                | Ok ys => Ok (y :: ys)
                | Raise e => Raise e
                end
      | Raise e => Raise e
      end
  end.

(** Modelled from the spec: [pyltr.util.group.check_qids], another module of
    the package, is missing here. The spec (sections 3 and 6): a qid must never reappear
    after a different qid has intervened; the check fails with a
    GroupingError otherwise. [reappears q qs] holds when [q] occurs in [qs]
    behind an entry that is not [q]. *)
Fixpoint reappears (q : qid) (qs : list Z) : bool :=
  match qs with
  | [] => false
  | q' :: qs' => if decide (q' = q) then reappears q qs' else bool_decide (q ∈ qs')
  end.

Fixpoint contiguous (qids : list Z) : bool :=
  match qids with
  | [] => true
  | q :: qs => negb (reappears q qs) && contiguous qs
  end.

Definition check_qids (qids : list Z) : result unit :=
  if contiguous qids then Ok tt else Raise GroupingError.

(** Modelled from the spec: [pyltr.util.group.get_groups], another module of
    the package, is missing here. The spec (section 6): an ordered sequence of
    [(qid, start, end)] triples covering the whole input exactly once, in
    encounter order. [groups_from cur start i qs]: the group of [cur] began at
    row [start], the rows before [i] are consumed, [qs] are the rows left. *)
Fixpoint groups_from (cur : qid) (start i : nat) (qs : list Z) : list (Z * nat * nat) :=
  match qs with
  | [] => [(cur, start, i)]
  | q :: qs' =>
      if decide (q = cur) then groups_from cur start (S i) qs'
      else (cur, start, i) :: groups_from q i (S i) qs'
  end.

Definition get_groups (qids : list Z) : list (Z * nat * nat) :=
  match qids with
  | [] => []
  | q :: qs => groups_from q 0 1 qs
  end.

Section Aggregator.
Variable get_sorted_y : list R -> list R -> result (list R).

Definition calc_mean (m : Metric) (qids : list Z) (targets preds : list R) : result R :=
  match check_qids qids with
  | Raise e => Raise e
  | Ok _ =>
      let query_groups := get_groups qids in
      match try_map (fun '(q, a, b) =>
                       evaluate_preds get_sorted_y m q (slice a b targets) (slice a b preds))
                    query_groups with
      | Ok scores => Ok (mean scores)
      | Raise e => Raise e
      end
  end.
End Aggregator.

(** ** calc_random_ev *)

Section RandomSource.
(** numpy's global generator: its state and [np.random.shuffle], which
    permutes an array in place and advances the state. *)
Variable rng : Type.
Variable shuffle : rng -> list R -> rng * list R.

Definition shuffle_in_place (r : loc) (g : rng) : M rng :=
  fun h => match h !! r with
           | Some a => let '(g', a') := shuffle g a in (<[r := a']> h, Ok g')
           | None => (h, Raise DanglingRef)
           end.

(** The generator state goes in and comes out next to the value. *)
Definition calc_random_ev (m : Metric) (q : qid) (targets : loc) (g : rng) : M (R * rng) :=
  let* t := load targets in
  let* copy := alloc t in
  let* out :=
    for_each (range 0 100)
      (fun _ '(scores, g) =>
         let* g' := shuffle_in_place copy g in
         let* shuffled := load copy in
         let* v := lift (evaluate m q shuffled) in
         ret (scores ++ [v], g'))
      ([], g) in
  ret (mean out.1, out.2).

(** The arrays the generator produces by shuffling [k] times in a row, and
    the state it is left in. *)
Fixpoint shuffles (k : nat) (g : rng) (t : list R) : list (list R) :=
  match k with
  | 0 => []
  | S k' => let '(g', t') := shuffle g t in t' :: shuffles k' g' t'
  end.

Fixpoint shuffles_state (k : nat) (g : rng) (t : list R) : rng :=
  match k with
  | 0 => g
  | S k' => let '(g', t') := shuffle g t in shuffles_state k' g' t'
  end.
End RandomSource.

(** ** calc_mean_random *)

(** [for x in xs: acc = body(x, acc)] over any items. *)
Fixpoint for_items {X A} (xs : list X) (body : X -> A -> M A) (acc : A) : M A :=
  match xs with
  | [] => ret acc
  | x :: xs' => let* acc' := body x acc in for_items xs' body acc'
  end.

Section RandomBaseline.
Variable rng : Type.
Variable shuffle : rng -> list R -> rng * list R.

(** [self.calc_random_ev(qid, targets[a:b])]: the slice is a view of the
    caller's array, which [calc_random_ev] reads once, in [np.copy]. *)
Definition calc_random_ev_view (m : Metric) (q : qid) (targets : loc) (a b : nat)
    (g : rng) : M (R * rng) :=
  let* t := load targets in
  let* copy := alloc (slice a b t) in
  let* out :=
    for_each (range 0 100)
      (fun _ '(scores, g) =>
         let* g' := shuffle_in_place rng shuffle copy g in
         let* shuffled := load copy in
         let* v := lift (evaluate m q shuffled) in
         ret (scores ++ [v], g'))
      ([], g) in
  ret (mean out.1, out.2).

Definition calc_mean_random (m : Metric) (qids : list Z) (targets : loc) (g : rng)
    : M (R * rng) :=
  let* _ := lift (check_qids qids) in
  let query_groups := get_groups qids in
  let* out :=
    for_items query_groups
      (fun '(q, a, b) '(scores, g) =>
         let* ev := calc_random_ev_view m q targets a b g in
         ret (scores ++ [ev.1], ev.2))
      ([], g) in
  ret (mean out.1, out.2).
End RandomBaseline.

(** ** What the claims speak of *)

(** [t] with the entries at positions [i] and [j] exchanged. *)
Definition exchange (t : list R) (i j : nat) : list R :=
  match t !! i, t !! j with
  | Some x, Some y => <[j := x]> (<[i := y]> t)
  | _, _ => t
  end.

(** The cutoff as the spec words it: [max_k()] when it is defined and less
    than [n], and [n] otherwise. *)
Definition spec_cutoff (mk : option Z) (n : nat) : Z :=
  match mk with
  | Some k => if (k <? Z.of_nat n)%Z then k else Z.of_nat n
  | None => Z.of_nat n
  end.

(** The change of a total metric under the exchange of ranks [i] and [j]. *)
Definition swap_delta (ev : qid -> list R -> R) (q : qid) (t : list R) (i j : nat) : R :=
  (ev q (exchange t i j) - ev q t)%R.

(** The matrix the spec describes for [calc_swap_deltas]. *)
Definition spec_entry (ev : qid -> list R -> R) (mk : option Z) (q : qid)
    (t : list R) (i j : nat) : R :=
  if decide ((Z.of_nat i < spec_cutoff mk (length t))%Z ∧ i < j)
  then swap_delta ev q t i j else 0%R.

(** The pairs the loops visit, in their order. *)
Definition rank_pairs (k n : nat) : list (nat * nat) :=
  i ← range 0 k; (λ j, (i, j)) <$> range (i + 1) n.

(** [v[a] += x] on a vector, for an index in range. *)
Definition add_at (v : list R) (a : nat) (x : R) : list R :=
  <[a := (nth a v 0 + x)%R]> v.

(** One pair's contribution to [(lambda, hessian)], as the spec words it. *)
Definition spec_pair (actual : list R) (positions : list nat) (preds : list R)
    (sd : nat -> nat -> R) (acc : list R * list R) (ij : nat * nat) : list R * list R :=
  let '(i, j) := ij in
  let ai := nth i actual 0%R in
  let aj := nth j actual 0%R in
  let a := nth i positions 0 in
  let b := nth j positions 0 in
  if decide (ai = aj) then acc
  else if decide (sd i j = 0%R) then acc
  else if decide (ai < aj)%R then
    let logistic := expit (nth a preds 0 - nth b preds 0)%R in
    let l := (logistic * sd i j)%R in
    let hess := ((1 - logistic) * l)%R in
    (add_at (add_at acc.1 a (- l)) b l, add_at (add_at acc.2 a hess) b hess)
  else
    let logistic := expit (nth b preds 0 - nth a preds 0)%R in
    let l := (logistic * - sd i j)%R in
    let hess := ((1 - logistic) * l)%R in
    (add_at (add_at acc.1 a l) b (- l), add_at (add_at acc.2 a hess) b hess).

Definition spec_lambdas_deltas (ev : qid -> list R -> R) (mk : option Z) (q : qid)
    (positions : list nat) (t p : list R) : list R * list R :=
  let n := length t in
  let actual := (λ a, nth a t 0%R) <$> positions in
  foldl (spec_pair actual positions p (swap_delta ev q actual))
        (zeros n, zeros n)
        (rank_pairs (Z.to_nat (spec_cutoff mk n)) n).

(** A pair that the loops consider and that breaks the sign convention. *)
Definition considered (mk : option Z) (n i j : nat) : Prop :=
  (Z.of_nat i < spec_cutoff mk n)%Z ∧ i < j < n.

Definition sign_violation (actual : list R) (sd : nat -> nat -> R) (i j : nat) : Prop :=
  let ai := nth i actual 0%R in
  let aj := nth j actual 0%R in
  ai ≠ aj ∧ sd i j ≠ 0%R ∧
  ((ai < aj ∧ sd i j <= 0) ∨ (ai > aj ∧ sd i j >= 0))%R.

(** ** The loops of calc_lambdas_deltas without the store

    The loops only read the store; these are the same loops over the contents
    of the two arrays, used to reason about them. *)

Definition rbind {A B} (x : result A) (k : A -> result B) : result B :=
  match x with
  | Ok a => k a
  | Raise e => Raise e
  end.

Notation "'let+' x ':=' c 'in' k" := (rbind c (fun x => k))
  (at level 10, x pattern, c at level 100, k at level 200, only parsing).

Fixpoint rfor_each {A} (xs : list nat) (body : nat -> A -> result A) (acc : A) : result A :=
  match xs with
  | [] => Ok acc
  | x :: xs' => let+ acc' := body x acc in rfor_each xs' body acc'
  end.

Definition lambda_step_pure (act : list R) (positions : list nat) (p : list R)
    (swap_deltas : matrix) (i j : nat) (acc : list R * list R) : result (list R * list R) :=
  let+ ai := vec_get act i in
  let+ aj := vec_get act j in
  if decide (ai = aj) then Ok acc else
  let+ delta_metric := mat_get swap_deltas i j in
  if decide (delta_metric = 0%R) then Ok acc else
  let+ a := idx_get positions i in
  let+ b := idx_get positions j in
  let+ ai := vec_get act i in
  let+ aj := vec_get act j in
  let+ br :=
    (if decide (ai < aj)%R then
       let+ _ := assert_that (0 < delta_metric)%R in
       let+ pa := vec_get p a in
       let+ pb := vec_get p b in
       let logistic := expit (pa - pb) in
       let l := (logistic * delta_metric)%R in
       let+ lambdas := vec_upd acc.1 a (fun x => x - l)%R in
       let+ lambdas := vec_upd lambdas b (fun x => x + l)%R in
       Ok (logistic, l, lambdas)
     else
       let+ _ := assert_that (delta_metric < 0)%R in
       let+ pb := vec_get p b in
       let+ pa := vec_get p a in
       let logistic := expit (pb - pa) in
       let l := (logistic * - delta_metric)%R in
       let+ lambdas := vec_upd acc.1 a (fun x => x + l)%R in
       let+ lambdas := vec_upd lambdas b (fun x => x - l)%R in
       Ok (logistic, l, lambdas)) in
  let '(logistic, l, lambdas) := br in
  let hess := ((1 - logistic) * l)%R in
  let+ deltas := vec_upd acc.2 a (fun x => x + hess)%R in
  let+ deltas := vec_upd deltas b (fun x => x + hess)%R in
  Ok (lambdas, deltas).

(** Both loops of [calc_lambdas_deltas], lines 107-137. *)
Definition lambda_loops_pure (act : list R) (positions : list nat) (p : list R)
    (swap_deltas : matrix) (k ns : nat) : result (list R * list R) :=
  rfor_each (range 0 k)
    (fun i => rfor_each (range (i + 1) ns)
                (lambda_step_pure act positions p swap_deltas i))
    (zeros ns, zeros ns).

(** An [n]-by-[n] matrix. *)
Definition shape (n : nat) (D : matrix) : Prop :=
  length D = n ∧ Forall (λ row, length row = n) D.

(** What a run of the swap loops on the array [t] at [r] can end in: the
    matrix, with the store as it was, or the exception of [evaluate] on an
    exchanged array, which is then what [r] holds. *)
Definition loop_outcome (m : Metric) (q : qid) (r : loc) (h : heap) (t : list R)
    (in_loop : nat -> nat -> Prop) (out : heap * result matrix) : Prop :=
  (exists D, out = (h, Ok D) ∧ shape (length t) D) ∨
  (exists i j e, in_loop i j ∧ evaluate m q (exchange t i j) = Raise e ∧
                 out = (<[r := exchange t i j]> h, Raise e)).

(** The groups [gs] tile the rows from [start] to [stop]: each is non-empty
    and begins where the one before ends. *)
Fixpoint tiles (start : nat) (gs : list (Z * nat * nat)) (stop : nat) : Prop :=
  match gs with
  | [] => start = stop
  | (_, a, b) :: gs' => a = start ∧ a < b ∧ tiles b gs' stop
  end.

(** The qids are not grouped: some qid comes back after a different one. *)
Definition interleaved (qids : list Z) : Prop :=
  exists i j k q q',
    i < j < k ∧ qids !! i = Some q ∧ qids !! j = Some q' ∧ q' ≠ q ∧ qids !! k = Some q.

(** A corpus cut into its queries, as C6 has it: a block is a qid with the
    targets and the preds of its rows. The rows of the blocks, one block
    after the other, are the corpus; every block has a row; neighbouring
    blocks carry different qids. *)
Abbreviation block := (Z * list R * list R)%type (only parsing).

Definition block_qids (bs : list block) : list Z :=
  concat (map (λ '(q, tb, _), replicate (length tb) q) bs).

Definition block_targets (bs : list block) : list R :=
  concat (map (λ '(_, tb, _), tb) bs).

Definition block_preds (bs : list block) : list R :=
  concat (map (λ '(_, _, pb), pb) bs).

Fixpoint adjacent_differ (qs : list Z) : Prop :=
  match qs with
  | q :: (q' :: _) as qs' => q ≠ q' ∧ adjacent_differ qs'
  | _ => True
  end.

Definition query_blocks (bs : list block) (qids : list Z) (targets preds : list R)
    : Prop :=
  block_qids bs = qids ∧ block_targets bs = targets ∧ block_preds bs = preds ∧
  Forall (λ '(_, tb, pb), tb ≠ [] ∧ length pb = length tb) bs ∧
  adjacent_differ (map (λ '(q, _, _), q) bs).

(** The row ranges of the blocks, the first one beginning at row [start]. *)
Fixpoint block_groups (start : nat) (bs : list block) : list (Z * nat * nat) :=
  match bs with
  | [] => []
  | (q, tb, _) :: bs' =>
      (q, start, start + length tb) :: block_groups (start + length tb) bs'
  end.

(** The scores of the blocks in their order, or the first exception. *)
Fixpoint block_scores (get_sorted_y : list R -> list R -> result (list R))
    (m : Metric) (bs : list block) : result (list R) :=
  match bs with
  | [] => Ok []
  | (q, tb, pb) :: bs' =>
      match evaluate_preds get_sorted_y m q tb pb with
      | Raise e => Raise e
      | Ok v =>
          match block_scores get_sorted_y m bs' with
          | Raise e => Raise e
          | Ok vs => Ok (v :: vs)
          end
      end
  end.

(** ** Instances used to exercise the statements *)

(** Modelled from the spec: a sorting utility as section 6 describes it, the
    index permutation that puts [preds] in descending order, ties in their
    original order. *)
Fixpoint insert_desc (preds : list R) (i : nat) (l : list nat) : list nat :=
  match l with
  | [] => [i]
  | j :: l' =>
      if decide (nth i preds 0 < nth j preds 0)%R
      then j :: insert_desc preds i l'
      else i :: j :: l'
  end.

Definition argsort_desc (targets preds : list R) : list nat :=
  foldr (insert_desc preds) [] (seq 0 (length targets)).

Definition sorted_by (targets preds : list R) : result (list R) :=
  if decide (length targets = length preds)
  then fancy_index targets (argsort_desc targets preds)
  else Raise IndexError.

(** The relevance of the top-ranked item, cut off at rank 1. *)
Definition top_relevance : Metric :=
  total_metric (fun _ t => nth 0 t 0%R) (Some 1%Z).

(** A metric whose [evaluate] raises on a ranking that starts with a 1. *)
Definition picky_metric : Metric :=
  {| evaluate := fun _ t => if decide (nth 0 t 0%R = 1%R)
                            then Raise (MetricError 0) else Ok 0%R;
     max_k := None |}.

(** A deterministic stand-in for the generator: the state counts the calls,
    a shuffle rotates by the state. *)
Definition rotate_shuffle (g : nat) (l : list R) : nat * list R := (S g, rotate g l).

(** Two items, the less relevant one predicted higher. *)
Definition example_targets : list R := [0; 1]%R.
Definition example_preds : list R := [2; 1]%R.
Definition example_heap : heap := <[0 := example_targets]> {[ 1 := example_preds ]}.

(** [top_relevance] with the sign turned round: it breaks the convention. *)
Definition negated_top_relevance : qid -> list R -> R := fun _ t => (- nth 0 t 0)%R.

(** ** The two methods over binary64

    The embedding above reads numpy's float64 as real numbers. Where a
    statement depends on rounding, [calc_swap_deltas] and
    [calc_lambdas_deltas] are read a second time over binary64 numbers
    (IEEE 754 with round to nearest even, the arithmetic of float64). The
    arrays are values here, and the swap loop hands its array on from step
    to step. *)

Module Binary64.
Import Floats.

Record Metric : Type := {
  evaluate : qid -> list float -> result float;
  max_k : option Z
}.

Definition effective_k (m : Metric) (n : nat) : nat :=
  match max_k m with
  | None => n
  | Some k => if (Z.of_nat n <? k)%Z then n else Z.to_nat k
  end.

Definition zeros (n : nat) : list float := replicate n 0%float.
Definition zeros2 (n k : nat) : list (list float) := replicate n (zeros k).

Definition vec_get (v : list float) (i : nat) : result float :=
  match v !! i with
  | Some x => Ok x
  | None => Raise IndexError
  end.

Definition vec_upd (v : list float) (i : nat) (f : float -> float)
    : result (list float) :=
  match v !! i with
  | Some x => Ok (<[i := f x]> v)
  | None => Raise IndexError
  end.

Definition mat_get (d : list (list float)) (i j : nat) : result float :=
  match d !! i with
  | Some row => vec_get row j
  | None => Raise IndexError
  end.

Definition mat_set (d : list (list float)) (i j : nat) (x : float)
    : result (list (list float)) :=
  match d !! i with
  | Some row =>
      match row !! j with
      | Some _ => Ok (<[i := <[j := x]> row]> d)
      | None => Raise IndexError
      end
  | None => Raise IndexError
  end.

(** [t[idx]] with an index array. *)
Fixpoint fancy_index (t : list float) (idx : list nat) : result (list float) :=
  match idx with
  | [] => Ok []
  | p :: ps =>
      match t !! p, fancy_index t ps with
      | Some x, Ok xs => Ok (x :: xs)
      | _, _ => Raise IndexError
      end
  end.

(** [assert c] *)
Definition assert_true (c : bool) : result unit :=
  if c then Ok tt else Raise AssertionError.

(** [tmp = targets[i]; targets[i] = targets[j]; targets[j] = tmp] *)
Definition swap_items (t : list float) (i j : nat) : result (list float) :=
  let+ tmp := vec_get t i in
  let+ tj := vec_get t j in
  let+ t1 := vec_upd t i (fun _ => tj) in
  vec_upd t1 j (fun _ => tmp).

(** The body of the inner loop, lines 67-73; [acc] is [(targets, deltas)]. *)
Definition swap_delta_step (m : Metric) (q : qid) (original : float) (i j : nat)
    (acc : list float * list (list float))
    : result (list float * list (list float)) :=
  let+ t1 := swap_items acc.1 i j in
  let+ v := evaluate m q t1 in
  let+ deltas := mat_set acc.2 i j (sub v original) in
  let+ t2 := swap_items t1 i j in
  Ok (t2, deltas).

Definition calc_swap_deltas (m : Metric) (q : qid) (targets : list float)
    : result (list float * list (list float)) :=
  let n_targets := length targets in
  let deltas := zeros2 n_targets n_targets in
  let+ original := evaluate m q targets in
  let k := effective_k m n_targets in
  rfor_each (range 0 k)
    (fun i => rfor_each (range (i + 1) n_targets) (swap_delta_step m q original i))
    (targets, deltas).

Section Utilities.
(** [scipy.special.expit] and [pyltr.util.sort.get_sorted_y_positions] are
    not part of this module: they are parameters. *)
Variable expit : float -> float.
Variable get_sorted_y_positions : list float -> list float -> list nat.

(** The body of the inner loop, lines 112-137. [acc] is [(lambdas, deltas)]. *)
Definition lambda_step (actual : list float) (positions : list nat)
    (preds : list float) (swap_deltas : list (list float)) (i j : nat)
    (acc : list float * list float) : result (list float * list float) :=
  let+ ai := vec_get actual i in
  let+ aj := vec_get actual j in
  if eqb ai aj then Ok acc else
  let+ delta_metric := mat_get swap_deltas i j in
  if eqb delta_metric 0 then Ok acc else
  let+ a := idx_get positions i in
  let+ b := idx_get positions j in
  let+ ai := vec_get actual i in
  let+ aj := vec_get actual j in
  let+ br :=
    (if ltb ai aj then
       let+ _ := assert_true (ltb 0 delta_metric) in
       let+ pa := vec_get preds a in
       let+ pb := vec_get preds b in
       let logistic := expit (sub pa pb) in
       let l := mul logistic delta_metric in
       let+ lambdas := vec_upd acc.1 a (fun x => sub x l) in
       let+ lambdas := vec_upd lambdas b (fun x => add x l) in
       Ok (logistic, l, lambdas)
     else
       let+ _ := assert_true (ltb delta_metric 0) in
       let+ pb := vec_get preds b in
       let+ pa := vec_get preds a in
       let logistic := expit (sub pb pa) in
       let l := mul logistic (opp delta_metric) in
       let+ lambdas := vec_upd acc.1 a (fun x => add x l) in
       let+ lambdas := vec_upd lambdas b (fun x => sub x l) in
       Ok (logistic, l, lambdas)) in
  let '(logistic, l, lambdas) := br in
  let hess := mul (sub 1 logistic) l in
  let+ deltas := vec_upd acc.2 a (fun x => add x hess) in
  let+ deltas := vec_upd deltas b (fun x => add x hess) in
  Ok (lambdas, deltas).

Definition calc_lambdas_deltas (m : Metric) (q : qid) (targets preds : list float)
    : result (list float * list float) :=
  let ns := length targets in
  let positions := get_sorted_y_positions targets preds in
  let+ actual := fancy_index targets positions in
  let+ swapped := calc_swap_deltas m q actual in
  let '(actual, swap_deltas) := swapped in
  let k := effective_k m ns in
  rfor_each (range 0 k)
    (fun i => rfor_each (range (i + 1) ns)
                (lambda_step actual positions preds swap_deltas i))
    (zeros ns, zeros ns).
End Utilities.

(** A finite binary64 number is [m * 2^e] with [e >= -1074]: its value
    times [2^1074] is an integer, computed here without rounding. *)
Definition exact_scaled (x : float) : option Z :=
  match Prim2SF x with
  | S754_zero _ => Some 0%Z
  | S754_finite s m e =>
      let v := (Z.pos m * 2 ^ (e + 1074))%Z in
      Some (if s then (- v)%Z else v)
  | _ => None
  end.

(** The sum of the entries as numbers, times [2^1074]. *)
Definition exact_sum_scaled (l : list float) : option Z :=
  foldr (fun x acc =>
           match exact_scaled x, acc with
           | Some a, Some b => Some (a + b)%Z
           | _, _ => None
           end)
        (Some 0%Z) l.

(** The sum of the entries as float64 adds them, from the left. *)
Definition float_sum (l : list float) : float := foldl add 0%float l.

(** [scipy.special.expit] returns 0.5 at 0.0. This stand-in agrees with it
    there and is nan everywhere else, so that a run that called it on
    another argument would show it. *)
Definition expit_at_zero (x : float) : float :=
  if eqb x 0 then 0x1p-1%float else nan.

(** Modelled from the spec: a sorting utility as section 6 describes it, the
    index permutation that puts [preds] in descending order, ties in their
    original order. *)
Fixpoint insert_desc (preds : list float) (i : nat) (l : list nat) : list nat :=
  match l with
  | [] => [i]
  | j :: l' =>
      if ltb (nth i preds 0%float) (nth j preds 0%float)
      then j :: insert_desc preds i l'
      else i :: j :: l'
  end.

Definition argsort_desc (targets preds : list float) : list nat :=
  foldr (insert_desc preds) [] (seq 0 (length targets)).

(** The relevance of the top-ranked item, cut off at rank 1. *)
Definition top_relevance : Metric :=
  {| evaluate := fun _ t => Ok (nth 0 t 0%float); max_k := Some 1%Z |}.

Definition half : float := 0x1p-1%float.

(** The float64 numbers printed 0.0, 0.2 and 0.4, with equal predictions. *)
Definition rounding_targets : list float :=
  [0%float; 0x1.999999999999ap-3%float; 0x1.999999999999ap-2%float].

Definition rounding_preds : list float := [1%float; 1%float; 1%float].

(** The float64 numbers printed -0.30000000000000004, 0.1 and 0.2. *)
Definition rounding_lambdas : list float :=
  [(-0x1.3333333333334p-2)%float; 0x1.999999999999ap-4%float;
   0x1.999999999999ap-3%float].
End Binary64.

(** * Proofs *)

(** ** The monad and its loops *)

Lemma bind_ok {A B} (c : M A) (k : A -> M B) h h' a :
  c h = (h', Ok a) -> bind c k h = k a h'.
Proof. intros Hc. unfold bind. by rewrite Hc. Qed.

Lemma bind_raise {A B} (c : M A) (k : A -> M B) h h' e :
  c h = (h', Raise e) -> bind c k h = (h', Raise e).
Proof. intros Hc. unfold bind. by rewrite Hc. Qed.

Lemma load_run r h t : h !! r = Some t -> load r h = (h, Ok t).
Proof. intros Hr. unfold load. by rewrite Hr. Qed.

Lemma getitem_run r i h t :
  h !! r = Some t -> getitem r i h = (h, vec_get t i).
Proof.
  intros Hr. unfold getitem. rewrite (bind_ok _ _ _ _ _ (load_run _ _ _ Hr)).
  unfold vec_get. by destruct (t !! i).
Qed.

Lemma setitem_run r i x h t :
  h !! r = Some t -> i < length t ->
  setitem r i x h = (<[r := <[i := x]> t]> h, Ok tt).
Proof. intros Hr Hi. unfold setitem. rewrite Hr. by rewrite decide_True. Qed.

(** A loop whose body leaves the store alone is a loop over results. *)
Lemma for_each_pure {A} (xs : list nat) (body : nat -> A -> M A)
    (pbody : nat -> A -> result A) (h : heap) :
  (forall x acc, x ∈ xs -> body x acc h = (h, pbody x acc)) ->
  forall acc, for_each xs body acc h = (h, rfor_each xs pbody acc).
Proof.
  induction xs as [|x xs IH]; intros Hb acc; [done|].
  cbn [for_each rfor_each]. unfold bind, rbind.
  rewrite Hb by set_solver.
  destruct (pbody x acc) as [acc'|e]; [|done].
  apply IH. intros y a Hy. apply Hb. set_solver.
Qed.

(** An invariant of the body is an invariant of the loop, exception or not. *)
Lemma for_each_inv {A} (I : heap -> Prop) (xs : list nat) (body : nat -> A -> M A) :
  (forall x acc h h' res, x ∈ xs -> I h -> body x acc h = (h', res) -> I h') ->
  forall acc h h' res, I h -> for_each xs body acc h = (h', res) -> I h'.
Proof.
  induction xs as [|x xs IH]; intros Hb acc h h' res Hh Hrun.
  - cbn in Hrun. unfold ret in Hrun. by simplify_eq.
  - cbn [for_each] in Hrun. unfold bind in Hrun.
    destruct (body x acc h) as [h1 [acc1|e]] eqn:Hx.
    + eapply IH; [|eapply Hb; [|exact Hh|exact Hx]|exact Hrun]; [|set_solver].
      intros y a g g' r Hy. apply Hb. set_solver.
    + simplify_eq. eapply Hb; [|exact Hh|exact Hx]. set_solver.
Qed.

Lemma elem_of_range lo hi x : x ∈ range lo hi <-> lo <= x < hi.
Proof. unfold range. rewrite elem_of_seq. lia. Qed.

(** ** Exchanging two entries *)

Lemma exchange_length t i j : length (exchange t i j) = length t.
Proof.
  unfold exchange. destruct (t !! i), (t !! j); try done.
  by rewrite !length_insert.
Qed.

Lemma exchange_lookup t i j k :
  i < length t -> j < length t ->
  exchange t i j !! k =
    if decide (k = j) then t !! i else if decide (k = i) then t !! j else t !! k.
Proof.
  intros Hi Hj. unfold exchange.
  destruct (lookup_lt_is_Some_2 t i Hi) as [x Hx].
  destruct (lookup_lt_is_Some_2 t j Hj) as [y Hy].
  rewrite Hx, Hy.
  destruct (decide (k = j)) as [->|Hkj].
  - rewrite list_lookup_insert_eq; [done|]. by rewrite length_insert.
  - rewrite list_lookup_insert_ne by done.
    destruct (decide (k = i)) as [->|Hki].
    + by rewrite list_lookup_insert_eq.
    + by rewrite list_lookup_insert_ne.
Qed.

Lemma exchange_involutive t i j :
  i < length t -> j < length t -> exchange (exchange t i j) i j = t.
Proof.
  intros Hi Hj. apply list_eq. intros k.
  rewrite exchange_lookup by (by rewrite exchange_length).
  rewrite !exchange_lookup by done.
  repeat case_decide; by simplify_eq.
Qed.

Lemma swap_items_run r i j h t :
  h !! r = Some t -> i < length t -> j < length t ->
  swap_items r i j h = (<[r := exchange t i j]> h, Ok tt).
Proof.
  intros Hr Hi Hj. unfold swap_items, exchange.
  destruct (lookup_lt_is_Some_2 t i Hi) as [x Hx].
  destruct (lookup_lt_is_Some_2 t j Hj) as [y Hy].
  unfold bind. rewrite !(getitem_run _ _ _ _ Hr). unfold vec_get.
  rewrite Hx, Hy.
  rewrite (setitem_run _ _ _ _ _ Hr Hi).
  erewrite setitem_run; [|apply lookup_insert_eq|by rewrite length_insert].
  by rewrite insert_insert_eq.
Qed.

(** ** One step of the swap loop *)

Lemma swap_delta_step_run m q r orig i j D h t row :
  h !! r = Some t -> i < length t -> j < length t ->
  D !! i = Some row -> j < length row ->
  swap_delta_step m q r orig i j D h =
    match evaluate m q (exchange t i j) with
    | Ok v => (h, Ok (<[i := <[j := (v - orig)%R]> row]> D))
    | Raise e => (<[r := exchange t i j]> h, Raise e)
    end.
Proof.
  intros Hr Hi Hj Hrow Hjr. unfold swap_delta_step.
  rewrite (bind_ok _ _ _ _ _ (swap_items_run _ _ _ _ _ Hr Hi Hj)).
  erewrite bind_ok; [|apply load_run, lookup_insert_eq].
  unfold bind at 1. unfold lift at 1.
  destruct (evaluate m q (exchange t i j)) as [v|e]; [|done].
  unfold bind at 1. unfold lift at 1. unfold mat_set.
  rewrite Hrow, decide_True by done.
  erewrite bind_ok;
    [|apply swap_items_run;
      [apply lookup_insert_eq|by rewrite exchange_length..]].
  rewrite insert_insert_eq, exchange_involutive by done.
  by rewrite insert_id.
Qed.

(** ** Matrices of a given shape *)

Lemma shape_zeros2 n : shape n (zeros2 n n).
Proof.
  split; [apply length_replicate|].
  apply Forall_replicate, length_replicate.
Qed.

Lemma shape_row n D i row : shape n D -> D !! i = Some row -> length row = n.
Proof. intros [_ HD] Hi. exact (Forall_lookup_1 _ _ _ _ HD Hi). Qed.

Lemma shape_set n D i j row x :
  shape n D -> D !! i = Some row -> shape n (<[i := <[j := x]> row]> D).
Proof.
  intros [HL HD] Hi. split; [by rewrite length_insert|].
  apply Forall_insert; [done|].
  rewrite length_insert. exact (Forall_lookup_1 _ _ _ _ HD Hi).
Qed.

Lemma mat_get_zeros2 n i j : i < n -> j < n -> mat_get (zeros2 n n) i j = Ok 0%R.
Proof.
  intros Hi Hj. unfold mat_get, zeros2, zeros, vec_get.
  rewrite lookup_replicate_2 by done. by rewrite lookup_replicate_2.
Qed.

Lemma mat_get_set n D i j row x i' j' :
  shape n D -> D !! i = Some row -> j < n ->
  mat_get (<[i := <[j := x]> row]> D) i' j' =
    if decide (i' = i ∧ j' = j) then Ok x else mat_get D i' j'.
Proof.
  intros HD Hi Hj. unfold mat_get, vec_get.
  pose proof (shape_row _ _ _ _ HD Hi) as Hlen.
  pose proof (lookup_lt_Some _ _ _ Hi) as Hilt.
  destruct (decide (i' = i)) as [->|Hne].
  - rewrite list_lookup_insert_eq by done. rewrite Hi.
    destruct (decide (j' = j)) as [->|Hnj].
    + rewrite list_lookup_insert_eq by lia. by rewrite decide_True.
    + rewrite list_lookup_insert_ne by done. rewrite decide_False; [done|tauto].
  - rewrite list_lookup_insert_ne by done. rewrite decide_False; [done|tauto].
Qed.

(** ** calc_swap_deltas on a metric that always returns *)

Section SwapTotal.
Variable ev : qid -> list R -> R.
Variable mk : option Z.
Variables (q : qid) (r : loc) (h : heap) (t : list R).
Hypothesis Hr : h !! r = Some t.

Let m := total_metric ev mk.
Let n := length t.

Lemma swap_inner_total orig i js :
  i < n -> (forall j, j ∈ js -> j < n) ->
  forall D, shape n D ->
  exists D',
    for_each js (swap_delta_step m q r orig i) D h = (h, Ok D') ∧
    shape n D' ∧
    forall i' j', mat_get D' i' j' =
      if decide (i' = i ∧ j' ∈ js)
      then Ok (ev q (exchange t i j') - orig)%R
      else mat_get D i' j'.
Proof.
  intros Hi. induction js as [|j js IH]; intros Hjs D HD.
  - exists D. split_and!; [done..|].
    intros i' j'. rewrite decide_False; [done|set_solver].
  - assert (j < n) as Hj by (apply Hjs; set_solver).
    destruct (lookup_lt_is_Some_2 D i) as [row Hrow]; [by rewrite (proj1 HD)|].
    pose proof (shape_row _ _ _ _ HD Hrow) as Hlen.
    destruct (IH (fun j' Hj' => Hjs j' ltac:(set_solver))
                (<[i := <[j := (ev q (exchange t i j) - orig)%R]> row]> D)
                (shape_set _ _ _ _ _ _ HD Hrow))
      as (D' & Hrun & HD' & Hget).
    exists D'. split_and!; [|done|].
    + cbn [for_each].
      erewrite bind_ok; [exact Hrun|].
      rewrite (swap_delta_step_run _ _ _ _ _ _ _ _ _ _ Hr Hi Hj Hrow) by lia.
      done.
    + intros i' j'. rewrite Hget.
      rewrite (mat_get_set n) by done.
      destruct (decide (i' = i ∧ j' ∈ js)) as [[-> Hin]|Hn1].
      * rewrite decide_True; [done|]. split; [done|set_solver].
      * destruct (decide (i' = i ∧ j' = j)) as [[-> ->]|Hn2].
        -- rewrite decide_True; [done|]. split; [done|set_solver].
        -- rewrite decide_False; [done|]. intros [-> Hin].
           apply elem_of_cons in Hin as [->|Hin]; tauto.
Qed.

Lemma swap_outer_total orig rows :
  (forall i, i ∈ rows -> i < n) ->
  forall D, shape n D ->
  exists D',
    for_each rows
      (fun i => for_each (range (i + 1) n) (swap_delta_step m q r orig i)) D h
      = (h, Ok D') ∧
    shape n D' ∧
    forall i' j', mat_get D' i' j' =
      if decide (i' ∈ rows ∧ i' < j' < n)
      then Ok (ev q (exchange t i' j') - orig)%R
      else mat_get D i' j'.
Proof.
  induction rows as [|i rows IH]; intros Hrows D HD.
  - exists D. split_and!; [done..|].
    intros i' j'. rewrite decide_False; [done|set_solver].
  - assert (i < n) as Hi by (apply Hrows; set_solver).
    destruct (swap_inner_total orig i (range (i + 1) n) Hi) with (D := D)
      as (D1 & Hrun1 & HD1 & Hget1); [by intros j [_ ?]%elem_of_range|done|].
    destruct (IH (fun i' Hi' => Hrows i' ltac:(set_solver)) D1 HD1)
      as (D' & Hrun & HD' & Hget).
    exists D'. split_and!; [|done|].
    + cbn [for_each]. erewrite bind_ok; [exact Hrun|exact Hrun1].
    + intros i' j'. rewrite Hget, Hget1.
      destruct (decide (i' ∈ rows ∧ i' < j' < n)) as [[Hin Hlt]|Hn1].
      * rewrite decide_True; [done|]. split; [set_solver|done].
      * destruct (decide (i' = i ∧ j' ∈ range (i + 1) n)) as [[-> Hj']|Hn2].
        -- apply elem_of_range in Hj'.
           rewrite decide_True; [done|]. split; [set_solver|lia].
        -- rewrite decide_False; [done|]. intros [Hin Hlt].
           apply elem_of_cons in Hin as [->|Hin]; [|tauto].
           apply Hn2. split; [done|]. apply elem_of_range. lia.
Qed.

Lemma calc_swap_deltas_total :
  exists D,
    calc_swap_deltas m q r h = (h, Ok D) ∧
    shape n D ∧
    forall i j, i < n -> j < n ->
      mat_get D i j =
        Ok (if decide (i < effective_k m n ∧ i < j)
            then swap_delta ev q t i j else 0%R).
Proof.
  destruct (swap_outer_total (ev q t) (range 0 (effective_k m n)))
    with (D := zeros2 n n) as (D & Hrun & HD & Hget).
  - intros i [_ Hi]%elem_of_range. revert Hi. unfold effective_k. cbn.
    destruct mk as [k|]; [|done]. case_match; [done|]. lia.
  - apply shape_zeros2.
  - exists D. split_and!; [|done|].
    + unfold calc_swap_deltas.
      rewrite (bind_ok _ _ _ _ _ (load_run _ _ _ Hr)).
      unfold bind at 1. unfold lift at 1. cbn [evaluate m total_metric].
      exact Hrun.
    + intros i j Hi Hj. rewrite Hget, mat_get_zeros2 by done.
      unfold swap_delta.
      destruct (decide (i ∈ range 0 (effective_k m n) ∧ i < j < n)) as [[Hin Hlt]|Hn1].
      * apply elem_of_range in Hin. rewrite decide_True; [done|lia].
      * rewrite decide_False; [done|]. intros [? ?]. apply Hn1.
        split; [apply elem_of_range|]; lia.
Qed.
End SwapTotal.

Lemma effective_k_spec ev mk n i :
  i < effective_k (total_metric ev mk) n <-> (Z.of_nat i < spec_cutoff mk n)%Z.
Proof.
  unfold effective_k, spec_cutoff. cbn.
  destruct mk as [k|]; [|lia].
  destruct (Z.ltb_spec (Z.of_nat n) k), (Z.ltb_spec k (Z.of_nat n)); lia.
Qed.

(** ** calc_swap_deltas on any metric *)

Section SwapGeneral.
Variable m : Metric.
Variables (q : qid) (r : loc) (h : heap) (t : list R).
Hypothesis Hr : h !! r = Some t.

Let n := length t.

Lemma swap_inner_general orig i js :
  i < n -> (forall j, j ∈ js -> j < n) ->
  forall D, shape n D ->
  loop_outcome m q r h t (fun i' j => i' = i ∧ j ∈ js)
               (for_each js (swap_delta_step m q r orig i) D h).
Proof.
  intros Hi. induction js as [|j js IH]; intros Hjs D HD.
  - left. by exists D.
  - assert (j < n) as Hj by (apply Hjs; set_solver).
    destruct (lookup_lt_is_Some_2 D i) as [row Hrow]; [by rewrite (proj1 HD)|].
    pose proof (shape_row _ _ _ _ HD Hrow) as Hlen.
    cbn [for_each]. unfold bind.
    rewrite (swap_delta_step_run _ _ _ _ _ _ _ _ _ _ Hr Hi Hj Hrow) by lia.
    destruct (evaluate m q (exchange t i j)) as [v|e] eqn:Hev.
    + destruct (IH (fun j' Hj' => Hjs j' ltac:(set_solver))
                  (<[i := <[j := (v - orig)%R]> row]> D)
                  (shape_set _ _ _ _ _ _ HD Hrow))
        as [HOk|(i' & j' & e & [-> Hin] & He & Hout)].
      * by left.
      * right. exists i, j', e. split_and!; [done|set_solver|done..].
    + right. exists i, j, e. split_and!; [done|set_solver|done..].
Qed.

Lemma swap_outer_general orig rows :
  (forall i, i ∈ rows -> i < n) ->
  forall D, shape n D ->
  loop_outcome m q r h t (fun i j => i ∈ rows ∧ i < j < n)
    (for_each rows
       (fun i => for_each (range (i + 1) n) (swap_delta_step m q r orig i)) D h).
Proof.
  induction rows as [|i rows IH]; intros Hrows D HD.
  - left. by exists D.
  - assert (i < n) as Hi by (apply Hrows; set_solver).
    cbn [for_each]. unfold bind.
    destruct (swap_inner_general orig i (range (i + 1) n) Hi) with (D := D)
      as [(D1 & -> & HD1)|(i' & j' & e & [-> Hin] & He & ->)];
      [by intros j [_ ?]%elem_of_range|done| |].
    + destruct (IH (fun i' Hi' => Hrows i' ltac:(set_solver)) D1 HD1)
        as [HOk|(i' & j' & e & [Hin Hlt] & He & Hout)].
      * by left.
      * right. exists i', j', e. split_and!; [set_solver|lia..|done|done].
    + right. apply elem_of_range in Hin.
      exists i, j', e. split_and!; [set_solver|lia..|done|done].
Qed.

Lemma calc_swap_deltas_outcome :
  (exists e, evaluate m q t = Raise e ∧ calc_swap_deltas m q r h = (h, Raise e)) ∨
  loop_outcome m q r h t (fun i j => i < effective_k m n ∧ i < j < n)
               (calc_swap_deltas m q r h).
Proof.
  unfold calc_swap_deltas.
  rewrite (bind_ok _ _ _ _ _ (load_run _ _ _ Hr)).
  unfold bind at 1. unfold lift at 1.
  destruct (evaluate m q t) as [orig|e] eqn:Hev; [|left; by exists e].
  right.
  destruct (swap_outer_general orig (range 0 (effective_k m n)))
    with (D := zeros2 n n)
    as [HOk|(i & j & e & [Hin Hlt] & He & Hout)].
  - intros i [_ Hi]%elem_of_range. revert Hi. unfold effective_k.
    destruct (max_k m) as [k|]; [|done]. case_match; [done|]. lia.
  - apply shape_zeros2.
  - by left.
  - right. apply elem_of_range in Hin.
    exists i, j, e. split_and!; [lia..|done|done].
Qed.

(** The store away from [r] is never touched. *)
Lemma calc_swap_deltas_frame h' res r' :
  calc_swap_deltas m q r h = (h', res) -> r' ≠ r -> h' !! r' = h !! r'.
Proof.
  intros Hrun Hne.
  destruct calc_swap_deltas_outcome
    as [(e & _ & Hout)|[(D & Hout & _)|(i & j & e & _ & _ & Hout)]];
    rewrite Hout in Hrun; simplify_eq; [done..|].
  by rewrite lookup_insert_ne.
Qed.

Lemma calc_swap_deltas_ok h' D :
  calc_swap_deltas m q r h = (h', Ok D) -> h' = h ∧ shape n D.
Proof.
  intros Hrun.
  destruct calc_swap_deltas_outcome
    as [(e & _ & Hout)|[(D' & Hout & HD)|(i & j & e & _ & _ & Hout)]];
    rewrite Hout in Hrun; by simplify_eq.
Qed.
End SwapGeneral.

(** ** The lambda loop reads the store and leaves it alone *)

Lemma bind_getitem_pure {B} r i (k : R -> M B) (k' : R -> result B) h t :
  h !! r = Some t -> (forall x, k x h = (h, k' x)) ->
  bind (getitem r i) k h = (h, rbind (vec_get t i) k').
Proof.
  intros Hr Hk. unfold bind. rewrite (getitem_run _ _ _ _ Hr).
  destruct (vec_get t i); [apply Hk|done].
Qed.

Lemma bind_lift_pure {A B} (c : result A) (k : A -> M B) (k' : A -> result B) h :
  (forall x, k x h = (h, k' x)) ->
  bind (lift c) k h = (h, rbind c k').
Proof. intros Hk. unfold bind, lift. destruct c; [apply Hk|done]. Qed.

Lemma bind_pure {A B} (c : M A) (c' : result A) (k : A -> M B) (k' : A -> result B) h :
  c h = (h, c') -> (forall x, k x h = (h, k' x)) ->
  bind c k h = (h, rbind c' k').
Proof. intros Hc Hk. unfold bind. rewrite Hc. destruct c'; [apply Hk|done]. Qed.

Ltac couple_reads Ha Hp :=
  repeat first
    [ apply (bind_getitem_pure _ _ _ _ _ _ Ha); intros ?
    | apply (bind_getitem_pure _ _ _ _ _ _ Hp); intros ?
    | apply bind_lift_pure; intros ?
    | case_decide
    | reflexivity ].

Lemma lambda_step_run actual positions preds sd i j acc h act p :
  h !! actual = Some act -> h !! preds = Some p ->
  lambda_step actual positions preds sd i j acc h
  = (h, lambda_step_pure act positions p sd i j acc).
Proof.
  intros Ha Hp. unfold lambda_step, lambda_step_pure.
  couple_reads Ha Hp.
  all: apply bind_pure; [couple_reads Ha Hp|intros [[logistic l] lambdas]].
  all: couple_reads Ha Hp.
Qed.

Lemma fresh_ne (h : heap) r : is_Some (h !! r) -> r ≠ fresh (dom h).
Proof.
  intros Hr ->. apply (is_fresh (dom h)). by apply elem_of_dom.
Qed.

Section LambdaRun.
Variable pos : list R -> list R -> list nat.
Variable m : Metric.
Variables (q : qid) (rt rp : loc) (h : heap) (t p : list R).
Hypothesis Ht : h !! rt = Some t.
Hypothesis Hp : h !! rp = Some p.

Let ra := fresh (dom h).

(** The run of [calc_lambdas_deltas], up to the loops over results. *)
Lemma calc_lambdas_deltas_run :
  match fancy_index t (pos t p) with
  | Raise e => calc_lambdas_deltas pos m q rt rp h = (h, Raise e)
  | Ok act =>
      match calc_swap_deltas m q ra (<[ra := act]> h) with
      | (h2, Ok sd) =>
          h2 = <[ra := act]> h ∧ shape (length act) sd ∧
          calc_lambdas_deltas pos m q rt rp h
          = (h2, lambda_loops_pure act (pos t p) p sd
                   (effective_k m (length t)) (length t))
      | (h2, Raise e) => calc_lambdas_deltas pos m q rt rp h = (h2, Raise e)
      end
  end.
Proof.
  assert (calc_lambdas_deltas pos m q rt rp h
            = bind (lift (fancy_index t (pos t p)))
                (fun actual_items =>
                   let* actual := alloc actual_items in
                   let* swap_deltas := calc_swap_deltas m q actual in
                   for_each (range 0 (effective_k m (length t)))
                     (fun i => for_each (range (i + 1) (length t))
                                 (lambda_step actual (pos t p) rp swap_deltas i))
                     (zeros (length t), zeros (length t))) h) as Hstart.
  { unfold calc_lambdas_deltas.
    rewrite (bind_ok _ _ _ _ _ (load_run _ _ _ Ht)).
    by rewrite (bind_ok _ _ _ _ _ (load_run _ _ _ Hp)). }
  rewrite Hstart. clear Hstart.
  destruct (fancy_index t (pos t p)) as [act|e]; [|done].
  rewrite (bind_ok (lift (Ok act)) _ h h act eq_refl).
  rewrite (bind_ok (alloc act) _ h _ ra eq_refl).
  assert ((<[ra := act]> h) !! ra = Some act) as Ha by apply lookup_insert_eq.
  assert ((<[ra := act]> h) !! rp = Some p) as Hp'.
  { rewrite lookup_insert_ne; [done|]. intros E. by apply (fresh_ne h rp). }
  destruct (calc_swap_deltas m q ra (<[ra := act]> h)) as [h2 [sd|e]] eqn:Hsd.
  - destruct (calc_swap_deltas_ok _ _ _ _ _ Ha _ _ Hsd) as [-> Hshape].
    split_and!; [done..|].
    rewrite (bind_ok _ _ _ _ _ Hsd).
    apply for_each_pure. intros i acc _.
    apply for_each_pure. intros j acc' _.
    by apply lambda_step_run.
  - by rewrite (bind_raise _ _ _ _ _ Hsd).
Qed.

(** Whatever happens, only the new array [actual] is written. *)
Lemma calc_lambdas_deltas_frame h' res r :
  calc_lambdas_deltas pos m q rt rp h = (h', res) ->
  is_Some (h !! r) -> h' !! r = h !! r.
Proof.
  intros Hrun Hin. pose proof calc_lambdas_deltas_run as Hc.
  destruct (fancy_index t (pos t p)) as [act|e].
  - assert ((<[ra := act]> h) !! ra = Some act) as Ha by apply lookup_insert_eq.
    destruct (calc_swap_deltas m q ra (<[ra := act]> h)) as [h2 [sd|e]] eqn:Hsd.
    + destruct Hc as (-> & _ & Hc). rewrite Hc in Hrun. simplify_eq.
      rewrite lookup_insert_ne; [done|]. intros E. by apply (fresh_ne h r).
    + rewrite Hc in Hrun. simplify_eq.
      rewrite (calc_swap_deltas_frame _ _ _ _ _ Ha _ _ r Hsd).
      * rewrite lookup_insert_ne; [done|]. intros E. by apply (fresh_ne h r).
      * by apply fresh_ne.
  - rewrite Hc in Hrun. by simplify_eq.
Qed.
End LambdaRun.

(** ** Loops over results *)

Lemma rfor_each_inv {A} (P : A -> Prop) (xs : list nat) (body : nat -> A -> result A) :
  (forall x acc acc', x ∈ xs -> P acc -> body x acc = Ok acc' -> P acc') ->
  forall acc acc', P acc -> rfor_each xs body acc = Ok acc' -> P acc'.
Proof.
  induction xs as [|x xs IH]; intros Hb acc acc' HP Hrun.
  - cbn in Hrun. by simplify_eq.
  - cbn [rfor_each] in Hrun. unfold rbind in Hrun.
    destruct (body x acc) as [acc1|e] eqn:Hx; [|done].
    eapply IH; [|eapply Hb; [|exact HP|exact Hx]|exact Hrun]; [|set_solver].
    intros y a a' Hy. apply Hb. set_solver.
Qed.

(** ** The logistic function and sums *)

Lemma expit_range x : (0 < expit x < 1)%R.
Proof.
  unfold expit. pose proof (exp_pos (- x)) as He.
  assert (0 < / (1 + exp (- x)))%R as Hpos by (apply Rinv_0_lt_compat; lra).
  split; [done|].
  apply Rmult_lt_reg_r with (1 + exp (- x))%R; [lra|].
  rewrite Rinv_l by lra. lra.
Qed.

Lemma sum_list_insert v a x y :
  v !! a = Some x -> sum_list (<[a := y]> v) = (sum_list v - x + y)%R.
Proof.
  revert a. induction v as [|z v IH]; intros [|a] Ha; simplify_eq/=.
  - lra.
  - rewrite (IH _ Ha). lra.
Qed.

Lemma sum_list_zeros n : sum_list (zeros n) = 0%R.
Proof.
  unfold zeros. induction n as [|n IH]; [done|].
  cbn [replicate sum_list foldr]. fold (sum_list (replicate n 0%R)). rewrite IH. lra.
Qed.

Lemma vec_upd_ok v a f v' :
  vec_upd v a f = Ok v' -> exists x, v !! a = Some x ∧ v' = <[a := f x]> v.
Proof.
  unfold vec_upd. destruct (v !! a) as [x|]; [|done].
  intros [= <-]. by exists x.
Qed.

Lemma vec_upd_sum v a f v' :
  vec_upd v a f = Ok v' ->
  exists x, v !! a = Some x ∧ sum_list v' = (sum_list v - x + f x)%R.
Proof.
  intros (x & Hx & ->)%vec_upd_ok. exists x. split; [done|].
  by apply sum_list_insert.
Qed.

Lemma vec_upd_length v a f v' : vec_upd v a f = Ok v' -> length v' = length v.
Proof. intros (x & Hx & ->)%vec_upd_ok. apply length_insert. Qed.

Lemma vec_upd_nonneg v a d v' :
  (0 <= d)%R -> Forall (λ x, 0 <= x)%R v ->
  vec_upd v a (fun x => x + d)%R = Ok v' -> Forall (λ x, 0 <= x)%R v'.
Proof.
  intros Hd Hv (x & Hx & ->)%vec_upd_ok.
  apply Forall_insert; [done|].
  pose proof (Forall_lookup_1 _ _ _ _ Hv Hx) as H0. cbn in H0. lra.
Qed.

(** What one step of the lambda loop does to the sums, when it returns. *)
Lemma lambda_step_pure_inv act positions p sd i j acc acc' :
  lambda_step_pure act positions p sd i j acc = Ok acc' ->
  sum_list acc'.1 = sum_list acc.1 ∧
  (Forall (λ x, 0 <= x)%R acc.2 -> Forall (λ x, 0 <= x)%R acc'.2) ∧
  length acc'.1 = length acc.1 ∧ length acc'.2 = length acc.2.
Proof.
  unfold lambda_step_pure. intros Hrun.
  destruct (vec_get act i) as [ai|] eqn:Eai; cbn [rbind] in Hrun; [|done].
  destruct (vec_get act j) as [aj|] eqn:Eaj; cbn [rbind] in Hrun; [|done].
  destruct (decide (ai = aj)); [by simplify_eq|].
  destruct (mat_get sd i j) as [dm|]; cbn [rbind] in Hrun; [|done].
  destruct (decide (dm = 0%R)); [by simplify_eq|].
  destruct (idx_get positions i) as [a|]; cbn [rbind] in Hrun; [|done].
  destruct (idx_get positions j) as [b|]; cbn [rbind] in Hrun; [|done].
  match type of Hrun with
  | rbind ?c _ = _ => destruct c as [[[logistic l] lambdas]|] eqn:Ebr
  end; cbn [rbind] in Hrun; [|done].
  destruct (vec_upd acc.2 a _) as [d1|] eqn:Ed1; cbn [rbind] in Hrun; [|done].
  destruct (vec_upd d1 b _) as [d2|] eqn:Ed2; cbn [rbind] in Hrun; [|done].
  simplify_eq. cbn [fst snd].
  assert (sum_list lambdas = sum_list acc.1 ∧ length lambdas = length acc.1 ∧
          0 <= (1 - logistic) * l)%R as (Hsum & Hlen & Hhess).
  { pose proof (expit_range) as Hex.
    destruct (decide (ai < aj)%R).
    - unfold assert_that in Ebr. destruct (decide (0 < dm)%R); cbn [rbind] in Ebr; [|done].
      destruct (vec_get p a) as [pa|]; cbn [rbind] in Ebr; [|done].
      destruct (vec_get p b) as [pb|]; cbn [rbind] in Ebr; [|done].
      destruct (vec_upd acc.1 a _) as [l1|] eqn:El1; cbn [rbind] in Ebr; [|done].
      destruct (vec_upd l1 b _) as [l2|] eqn:El2; cbn [rbind] in Ebr; [|done].
      simplify_eq.
      destruct (vec_upd_sum _ _ _ _ El1) as (x1 & _ & S1).
      destruct (vec_upd_sum _ _ _ _ El2) as (x2 & _ & S2).
      cbn beta in S1, S2.
      rewrite (vec_upd_length _ _ _ _ El2), (vec_upd_length _ _ _ _ El1).
      specialize (Hex (pa - pb)%R).
      split_and!; [rewrite S2, S1; ring|done|].
      apply Rmult_le_pos; [lra|]. apply Rmult_le_pos; lra.
    - unfold assert_that in Ebr. destruct (decide (dm < 0)%R); cbn [rbind] in Ebr; [|done].
      destruct (vec_get p b) as [pb|]; cbn [rbind] in Ebr; [|done].
      destruct (vec_get p a) as [pa|]; cbn [rbind] in Ebr; [|done].
      destruct (vec_upd acc.1 a _) as [l1|] eqn:El1; cbn [rbind] in Ebr; [|done].
      destruct (vec_upd l1 b _) as [l2|] eqn:El2; cbn [rbind] in Ebr; [|done].
      simplify_eq.
      destruct (vec_upd_sum _ _ _ _ El1) as (x1 & _ & S1).
      destruct (vec_upd_sum _ _ _ _ El2) as (x2 & _ & S2).
      cbn beta in S1, S2.
      rewrite (vec_upd_length _ _ _ _ El2), (vec_upd_length _ _ _ _ El1).
      specialize (Hex (pb - pa)%R).
      split_and!; [rewrite S2, S1; ring|done|].
      apply Rmult_le_pos; [lra|]. apply Rmult_le_pos; lra. }
  split_and!; [done| |done|].
  - intros Hnn. eapply vec_upd_nonneg; [exact Hhess| |exact Ed2].
    eapply vec_upd_nonneg; [exact Hhess|exact Hnn|exact Ed1].
  - by rewrite (vec_upd_length _ _ _ _ Ed2), (vec_upd_length _ _ _ _ Ed1).
Qed.

Lemma lambda_loops_pure_inv act positions p sd k ns lam hes :
  lambda_loops_pure act positions p sd k ns = Ok (lam, hes) ->
  sum_list lam = 0%R ∧ Forall (λ x, 0 <= x)%R hes ∧
  length lam = ns ∧ length hes = ns.
Proof.
  unfold lambda_loops_pure. intros Hrun.
  set (P := fun acc : list R * list R =>
              sum_list acc.1 = 0%R ∧ Forall (λ x, 0 <= x)%R acc.2 ∧
              length acc.1 = ns ∧ length acc.2 = ns).
  change (P (lam, hes)).
  eapply rfor_each_inv; [|shelve|exact Hrun].
  { intros i acc acc' _ HP Hi. revert acc acc' HP Hi.
    apply rfor_each_inv. intros j acc acc' _ (Hs & Hn & Hl1 & Hl2) Hj.
    destruct (lambda_step_pure_inv _ _ _ _ _ _ _ _ Hj) as (Es & En & El1 & El2).
    split_and!; [congruence|auto|congruence..]. }
  Unshelve.
  split_and!; cbn [fst snd].
  - apply sum_list_zeros.
  - apply Forall_replicate. lra.
  - apply length_replicate.
  - apply length_replicate.
Qed.

(** ** Reads and updates within range *)

Lemma lookup_nth_R (v : list R) i : i < length v -> v !! i = Some (nth i v 0%R).
Proof.
  intros Hi. destruct (lookup_lt_is_Some_2 v i Hi) as [x Hx].
  by rewrite (nth_lookup_Some _ _ _ _ Hx).
Qed.

Lemma vec_get_nth v i : i < length v -> vec_get v i = Ok (nth i v 0%R).
Proof. intros Hi. unfold vec_get. by rewrite lookup_nth_R. Qed.

Lemma idx_get_nth (l : list nat) i : i < length l -> idx_get l i = Ok (nth i l 0).
Proof.
  intros Hi. unfold idx_get.
  destruct (lookup_lt_is_Some_2 l i Hi) as [x Hx].
  by rewrite Hx, (nth_lookup_Some _ _ _ _ Hx).
Qed.

Lemma vec_upd_add v a d :
  a < length v -> vec_upd v a (fun x => x + d)%R = Ok (add_at v a d).
Proof. intros Ha. unfold vec_upd, add_at. by rewrite lookup_nth_R. Qed.

Lemma vec_upd_sub v a d :
  a < length v -> vec_upd v a (fun x => x - d)%R = Ok (add_at v a (- d)).
Proof. intros Ha. unfold vec_upd, add_at. by rewrite lookup_nth_R. Qed.

Lemma add_at_length v a d : length (add_at v a d) = length v.
Proof. apply length_insert. Qed.

Lemma fancy_index_ok t idx :
  (forall a, a ∈ idx -> a < length t) ->
  fancy_index t idx = Ok ((λ a, nth a t 0%R) <$> idx).
Proof.
  induction idx as [|a idx IH]; intros Hidx; [done|].
  cbn [fancy_index fmap list_fmap].
  rewrite lookup_nth_R by (apply Hidx; set_solver).
  rewrite IH; [done|]. intros b Hb. apply Hidx. set_solver.
Qed.

Lemma effective_k_cutoff ev mk n :
  effective_k (total_metric ev mk) n = Z.to_nat (spec_cutoff mk n).
Proof.
  unfold effective_k, spec_cutoff. cbn.
  destruct mk as [k|]; [|lia].
  destruct (Z.ltb_spec (Z.of_nat n) k), (Z.ltb_spec k (Z.of_nat n)); lia.
Qed.

Lemma sign_violation_dec actual sd i j :
  sign_violation actual sd i j ∨ ¬ sign_violation actual sd i j.
Proof.
  unfold sign_violation.
  destruct (Rtotal_order (nth i actual 0%R) (nth j actual 0%R)) as [Hlt|[Heq|Hgt]];
  destruct (Rtotal_order (sd i j) 0%R) as [Hlt'|[Heq'|Hgt']];
    first [left; split_and!; lra | right; intros (? & ? & [[? ?]|[? ?]]); lra].
Qed.

(** ** calc_lambdas_deltas on a metric that always returns *)

Section LambdaTotal.
Variables (act : list R) (positions : list nat) (p : list R).
Variable sd : matrix.
Variable sdf : nat -> nat -> R.
Variable n : nat.
Hypothesis Hact : length act = n.
Hypothesis Hp : length p = n.
Hypothesis Hpos_len : length positions = n.
Hypothesis Hpos_lt : forall a, a ∈ positions -> a < n.

Let sized (acc : list R * list R) : Prop := length acc.1 = n ∧ length acc.2 = n.

Lemma nth_positions_lt i : i < n -> nth i positions 0 < n.
Proof.
  intros Hi. apply Hpos_lt.
  destruct (lookup_lt_is_Some_2 positions i) as [a Ha]; [lia|].
  rewrite (nth_lookup_Some _ _ _ _ Ha). by eapply list_elem_of_lookup_2.
Qed.

Lemma spec_pair_sized acc ij : sized acc -> sized (spec_pair act positions p sdf acc ij).
Proof.
  intros [H1 H2]. destruct ij as [i j]. unfold spec_pair, sized.
  repeat case_decide; cbn [fst snd]; by rewrite ?add_at_length.
Qed.

(** One step: the assertion fails on a violation of the sign convention,
    and otherwise the step adds the pair's contribution. *)
Lemma lambda_step_pure_total i j acc :
  i < n -> j < n -> mat_get sd i j = Ok (sdf i j) -> sized acc ->
  (sign_violation act sdf i j ∧
   lambda_step_pure act positions p sd i j acc = Raise AssertionError) ∨
  (¬ sign_violation act sdf i j ∧
   lambda_step_pure act positions p sd i j acc
   = Ok (spec_pair act positions p sdf acc (i, j))).
Proof.
  intros Hi Hj Hsd [Hl1 Hl2].
  pose proof (nth_positions_lt i Hi) as Ha.
  pose proof (nth_positions_lt j Hj) as Hb.
  unfold lambda_step_pure, spec_pair, sign_violation.
  rewrite !(vec_get_nth act i), !(vec_get_nth act j) by lia.
  cbn [rbind].
  destruct (decide (nth i act 0%R = nth j act 0%R)) as [Heq|Hne].
  { right. split; [|done]. intros (? & _). done. }
  rewrite Hsd. cbn [rbind].
  destruct (decide (sdf i j = 0%R)) as [Hz|Hnz].
  { right. split; [|done]. intros (_ & ? & _). done. }
  rewrite (idx_get_nth positions i), (idx_get_nth positions j) by lia.
  cbn [rbind].
  set (a := nth i positions 0) in *. set (b := nth j positions 0) in *.
  destruct (decide (nth i act 0 < nth j act 0)%R) as [Hlt|Hnlt].
  - unfold assert_that. destruct (decide (0 < sdf i j)%R) as [Hs|Hs]; cbn [rbind].
    + right. split; [intros (_ & _ & [[_ ?]|[? _]]); lra|].
      rewrite (vec_get_nth p a), (vec_get_nth p b) by lia. cbn [rbind].
      rewrite (vec_upd_sub acc.1 a) by lia. cbn [rbind].
      rewrite vec_upd_add by (rewrite add_at_length; lia). cbn [rbind].
      rewrite (vec_upd_add acc.2 a) by lia. cbn [rbind].
      rewrite vec_upd_add by (rewrite add_at_length; lia). cbn [rbind].
      done.
    + left. split; [|done]. split_and!; [done..|]. left. lra.
  - unfold assert_that. destruct (decide (sdf i j < 0)%R) as [Hs|Hs]; cbn [rbind].
    + right. split; [intros (_ & _ & [[? _]|[_ ?]]); lra|].
      rewrite (vec_get_nth p a), (vec_get_nth p b) by lia. cbn [rbind].
      rewrite (vec_upd_add acc.1 a) by lia. cbn [rbind].
      rewrite vec_upd_sub by (rewrite add_at_length; lia). cbn [rbind].
      rewrite (vec_upd_add acc.2 a) by lia. cbn [rbind].
      rewrite vec_upd_add by (rewrite add_at_length; lia). cbn [rbind].
      done.
    + left. split; [|done]. split_and!; [done..|]. right. lra.
Qed.
End LambdaTotal.

(** ** From the loops to a fold over the pairs *)

Lemma rfor_each_foldl {A} (Inv : A -> Prop) (f : A -> nat -> A) (xs : list nat)
    (body : nat -> A -> result A) :
  (forall x acc, x ∈ xs -> Inv acc -> body x acc = Ok (f acc x) ∧ Inv (f acc x)) ->
  forall acc, Inv acc ->
    rfor_each xs body acc = Ok (foldl f acc xs) ∧ Inv (foldl f acc xs).
Proof.
  induction xs as [|x xs IH]; intros Hb acc HI; [done|].
  cbn [rfor_each foldl].
  destruct (Hb x acc ltac:(set_solver) HI) as [-> HI']. cbn [rbind].
  apply IH; [|done]. intros y a Hy. apply Hb. set_solver.
Qed.

(** A loop whose steps either go on or raise [e0], and raise it on every
    bad element, raises [e0] exactly when it meets a bad element. *)
Lemma rfor_each_dichotomy {A} (Inv : A -> Prop) (bad : nat -> Prop) (e0 : exn)
    (xs : list nat) (body : nat -> A -> result A) :
  (forall x acc, x ∈ xs -> Inv acc ->
     (exists acc', body x acc = Ok acc' ∧ Inv acc' ∧ ¬ bad x) ∨
     (body x acc = Raise e0 ∧ bad x)) ->
  forall acc, Inv acc ->
    (exists acc', rfor_each xs body acc = Ok acc' ∧ Inv acc' ∧
                  forall x, x ∈ xs -> ¬ bad x) ∨
    (rfor_each xs body acc = Raise e0 ∧ exists x, x ∈ xs ∧ bad x).
Proof.
  induction xs as [|x xs IH]; intros Hb acc HI.
  - left. exists acc. split_and!; [done..|]. intros x Hx. by apply elem_of_nil in Hx.
  - cbn [rfor_each].
    destruct (Hb x acc ltac:(set_solver) HI) as [(acc1 & -> & HI1 & Hgood)|[-> Hbad]];
      cbn [rbind].
    + destruct (IH (fun y a Hy => Hb y a ltac:(set_solver)) acc1 HI1)
        as [(acc' & Hrun & HI' & Hall)|[Hrun (y & Hy & Hbad)]].
      * left. exists acc'. split_and!; [done..|].
        intros y [->|Hy]%elem_of_cons; auto.
      * right. split; [done|]. exists y. split; [set_solver|done].
    + right. split; [done|]. exists x. split; [set_solver|done].
Qed.

Lemma foldl_rank_pairs {A} (f : A -> nat * nat -> A) (ys : nat -> list nat)
    (xs : list nat) (acc : A) :
  foldl f acc (i ← xs; (λ j, (i, j)) <$> ys i)
  = foldl (fun acc i => foldl (fun acc j => f acc (i, j)) acc (ys i)) acc xs.
Proof.
  revert acc. induction xs as [|x xs IH]; intros acc; [done|].
  cbn [mbind list_bind foldl]. rewrite foldl_app. rewrite <- IH.
  f_equal. generalize (ys x). clear. intros l. revert acc.
  induction l as [|y l IH]; intros acc; [done|]. cbn. apply IH.
Qed.

Lemma effective_k_le m n : effective_k m n <= n.
Proof.
  unfold effective_k. destruct (max_k m) as [k|]; [|done].
  destruct (Z.ltb_spec (Z.of_nat n) k); lia.
Qed.

Section LambdaLoops.
Variables (act : list R) (positions : list nat) (p : list R).
Variable sd : matrix.
Variable sdf : nat -> nat -> R.
Variables k n : nat.
Hypothesis Hk : k <= n.
Hypothesis Hact : length act = n.
Hypothesis Hp : length p = n.
Hypothesis Hpos_len : length positions = n.
Hypothesis Hpos_lt : forall a, a ∈ positions -> a < n.
Hypothesis Hsd : forall i j, i < k -> i < j < n -> mat_get sd i j = Ok (sdf i j).

Lemma lambda_loops_pure_ok :
  (forall i j, i < k -> i < j < n -> ¬ sign_violation act sdf i j) ->
  lambda_loops_pure act positions p sd k n
  = Ok (foldl (spec_pair act positions p sdf) (zeros n, zeros n) (rank_pairs k n)).
Proof.
  intros Hgood. unfold lambda_loops_pure, rank_pairs.
  rewrite foldl_rank_pairs.
  apply (rfor_each_foldl (fun acc => length acc.1 = n ∧ length acc.2 = n)).
  - intros i acc [_ Hi]%elem_of_range Hacc.
    apply (rfor_each_foldl (fun acc => length acc.1 = n ∧ length acc.2 = n)
             (fun acc j => spec_pair act positions p sdf acc (i, j))); [|done].
    intros j acc' [Hij Hj]%elem_of_range Hacc'.
    split; [|by apply (spec_pair_sized _ _ _ _ n)].
    destruct (lambda_step_pure_total act positions p sd sdf n Hact Hp Hpos_len
                Hpos_lt i j acc') as [[Hbad _]|[_ Hrun]]; [lia|lia|apply Hsd; lia|done| |done].
    exfalso. apply (Hgood i j); [lia|lia|done].
  - split; apply length_replicate.
Qed.

Lemma lambda_loops_pure_raise :
  (exists i j, i < k ∧ i < j < n ∧ sign_violation act sdf i j) ->
  lambda_loops_pure act positions p sd k n = Raise AssertionError.
Proof.
  intros (i0 & j0 & Hi0 & Hj0 & Hbad0). unfold lambda_loops_pure.
  destruct (rfor_each_dichotomy
              (fun acc : list R * list R => length acc.1 = n ∧ length acc.2 = n)
              (fun i => exists j, i < j < n ∧ sign_violation act sdf i j)
              AssertionError (range 0 k)
              (fun i => rfor_each (range (i + 1) n)
                          (lambda_step_pure act positions p sd i)))
    with (acc := (zeros n, zeros n))
    as [(acc' & _ & _ & Hall)|[Hrun _]]; [| |exfalso|done].
  - intros i acc [_ Hi]%elem_of_range Hacc.
    destruct (rfor_each_dichotomy
                (fun acc : list R * list R => length acc.1 = n ∧ length acc.2 = n)
                (fun j => sign_violation act sdf i j)
                AssertionError (range (i + 1) n)
                (lambda_step_pure act positions p sd i))
      with (acc := acc)
      as [(acc' & Hrun & Hacc' & Hall)|[Hrun (j & Hj & Hbad)]]; [|done| |].
    + intros j acc' [Hij Hj]%elem_of_range Hacc'.
      destruct (lambda_step_pure_total act positions p sd sdf n Hact Hp Hpos_len
                  Hpos_lt i j acc') as [[Hbad Hrun]|[Hgood Hrun]];
        [lia|lia|apply Hsd; lia|done| |].
      * by right.
      * left. eexists. split; [exact Hrun|]. split; [|done].
        by apply (spec_pair_sized _ _ _ _ n).
    + left. exists acc'. split; [done|]. split; [done|].
      intros (j & Hj & Hbad). apply (Hall j); [|done]. apply elem_of_range. lia.
    + right. split; [done|]. apply elem_of_range in Hj. exists j. split; [lia|done].
  - split; apply length_replicate.
  - apply (Hall i0); [apply elem_of_range; lia|]. by exists j0.
Qed.
End LambdaLoops.

Section LambdaTop.
Variable pos : list R -> list R -> list nat.
Hypothesis Hpos : forall t p, length t = length p -> pos t p ≡ₚ seq 0 (length t).
Variable ev : qid -> list R -> R.
Variable mk : option Z.
Variables (q : qid) (rt rp : loc) (h : heap) (t p : list R).
Hypothesis Ht : h !! rt = Some t.
Hypothesis Hp : h !! rp = Some p.
Hypothesis Hlen : length t = length p.

Lemma positions_length : length (pos t p) = length t.
Proof. rewrite (Hpos t p Hlen). apply length_seq. Qed.

Lemma positions_lt a : a ∈ pos t p -> a < length t.
Proof. rewrite (Hpos t p Hlen), elem_of_seq. lia. Qed.

(** The run on a total metric: the new array holds the targets in rank
    order, the matrix holds the swap deltas of the considered pairs, and the
    result is that of the loops. *)
Lemma calc_lambdas_deltas_total :
  exists D,
    calc_lambdas_deltas pos (total_metric ev mk) q rt rp h
    = (<[fresh (dom h) := (λ a, nth a t 0%R) <$> pos t p]> h,
       lambda_loops_pure ((λ a, nth a t 0%R) <$> pos t p) (pos t p) p D
         (Z.to_nat (spec_cutoff mk (length t))) (length t)) ∧
    forall i j, i < Z.to_nat (spec_cutoff mk (length t)) -> i < j < length t ->
      mat_get D i j = Ok (swap_delta ev q ((λ a, nth a t 0%R) <$> pos t p) i j).
Proof.
  pose proof (calc_lambdas_deltas_run pos (total_metric ev mk) q rt rp h t p Ht Hp)
    as Hrun.
  rewrite (fancy_index_ok t (pos t p) positions_lt) in Hrun.
  set (act := (λ a, nth a t 0%R) <$> pos t p) in *.
  assert (length act = length t) as Hact
    by (unfold act; rewrite length_fmap; apply positions_length).
  destruct (calc_swap_deltas_total ev mk q (fresh (dom h))
              (<[fresh (dom h) := act]> h) act (lookup_insert_eq _ _ _))
    as (D & HD & _ & Hget).
  rewrite HD in Hrun. destruct Hrun as (_ & _ & Hrun).
  exists D. rewrite <- (effective_k_cutoff ev). split; [done|].
  intros i j Hi Hj. rewrite Hact in Hget. rewrite Hget by lia.
  rewrite decide_True; [done|lia].
Qed.
End LambdaTop.

Lemma spec_lambdas_deltas_length ev mk q positions t p :
  length (spec_lambdas_deltas ev mk q positions t p).1 = length t ∧
  length (spec_lambdas_deltas ev mk q positions t p).2 = length t.
Proof.
  unfold spec_lambdas_deltas.
  generalize (rank_pairs (Z.to_nat (spec_cutoff mk (length t))) (length t)).
  intros pairs.
  assert (length (zeros (length t), zeros (length t)).1 = length t ∧
          length (zeros (length t), zeros (length t)).2 = length t) as Hz
    by (split; apply length_replicate).
  revert Hz. generalize (zeros (length t), zeros (length t)).
  induction pairs as [|ij pairs IH]; intros acc Hacc; [done|].
  cbn [foldl]. apply IH. by apply (spec_pair_sized _ _ _ _ (length t)).
Qed.

(** ** Returning normally *)

Lemma calc_lambdas_deltas_ok_lookup pos m q rt rp h h' res :
  calc_lambdas_deltas pos m q rt rp h = (h', Ok res) ->
  exists t p, h !! rt = Some t ∧ h !! rp = Some p.
Proof.
  unfold calc_lambdas_deltas, bind at 1, load at 1.
  destruct (h !! rt) as [t|]; [|done].
  unfold bind at 1, load at 1.
  destruct (h !! rp) as [p|]; [|done].
  intros _. by exists t, p.
Qed.

Lemma calc_lambdas_deltas_ok_loops pos m q rt rp h h' res :
  calc_lambdas_deltas pos m q rt rp h = (h', Ok res) ->
  exists act positions p sd k ns, lambda_loops_pure act positions p sd k ns = Ok res.
Proof.
  intros Hrun.
  destruct (calc_lambdas_deltas_ok_lookup _ _ _ _ _ _ _ _ Hrun) as (t & p & Ht & Hp).
  pose proof (calc_lambdas_deltas_run pos m q rt rp h t p Ht Hp) as Hc.
  destruct (fancy_index t (pos t p)) as [act|e]; [|by rewrite Hc in Hrun].
  destruct (calc_swap_deltas m q _ _) as [h2 [sd|e]]; [|by rewrite Hc in Hrun].
  destruct Hc as (_ & _ & Hc). rewrite Hc in Hrun.
  exists act, (pos t p), p, sd, (effective_k m (length t)), (length t).
  by simplify_eq.
Qed.

Section LambdaContract.
Variable pos : list R -> list R -> list nat.
Hypothesis Hpos : forall t p, length t = length p -> pos t p ≡ₚ seq 0 (length t).
Variable ev : qid -> list R -> R.
Variable mk : option Z.
Variables (q : qid) (rt rp : loc) (h : heap) (t p : list R).
Hypothesis Ht : h !! rt = Some t.
Hypothesis Hp : h !! rp = Some p.
Hypothesis Hlen : length t = length p.

Lemma considered_iff n i j :
  considered mk n i j <-> i < Z.to_nat (spec_cutoff mk n) ∧ i < j < n.
Proof. unfold considered. lia. Qed.

Lemma spec_cutoff_le n : Z.to_nat (spec_cutoff mk n) <= n.
Proof. rewrite <- (effective_k_cutoff ev). apply effective_k_le. Qed.

Lemma calc_lambdas_deltas_total_ok :
  (forall i j, considered mk (length t) i j ->
     ¬ sign_violation ((λ a, nth a t 0%R) <$> pos t p)
         (swap_delta ev q ((λ a, nth a t 0%R) <$> pos t p)) i j) ->
  calc_lambdas_deltas pos (total_metric ev mk) q rt rp h
  = (<[fresh (dom h) := (λ a, nth a t 0%R) <$> pos t p]> h,
     Ok (spec_lambdas_deltas ev mk q (pos t p) t p)).
Proof.
  intros Hgood.
  destruct (calc_lambdas_deltas_total pos Hpos ev mk q rt rp h t p Ht Hp Hlen)
    as (D & Hrun & HD).
  rewrite Hrun. f_equal. unfold spec_lambdas_deltas.
  apply lambda_loops_pure_ok; try done.
  - apply spec_cutoff_le.
  - rewrite length_fmap. by apply positions_length.
  - by apply positions_length.
  - by apply positions_lt.
  - intros i j Hi Hj. apply Hgood. apply considered_iff. lia.
Qed.

Lemma calc_lambdas_deltas_total_raise :
  (exists i j, considered mk (length t) i j ∧
     sign_violation ((λ a, nth a t 0%R) <$> pos t p)
       (swap_delta ev q ((λ a, nth a t 0%R) <$> pos t p)) i j) ->
  calc_lambdas_deltas pos (total_metric ev mk) q rt rp h
  = (<[fresh (dom h) := (λ a, nth a t 0%R) <$> pos t p]> h, Raise AssertionError).
Proof.
  intros (i & j & Hc & Hbad).
  destruct (calc_lambdas_deltas_total pos Hpos ev mk q rt rp h t p Ht Hp Hlen)
    as (D & Hrun & HD).
  rewrite Hrun. f_equal.
  apply (lambda_loops_pure_raise _ _ _ _
           (swap_delta ev q ((λ a, nth a t 0%R) <$> pos t p))); try done.
  - apply spec_cutoff_le.
  - rewrite length_fmap. by apply positions_length.
  - by apply positions_length.
  - by apply positions_lt.
  - apply considered_iff in Hc. exists i, j. split_and!; [lia..|done].
Qed.
End LambdaContract.

(** ** Every considered pair keeps the convention, or one breaks it *)

Lemma bounded_dichotomy (P : nat -> Prop) :
  (forall x, P x ∨ ¬ P x) ->
  forall lo hi, (forall x, lo <= x < hi -> ¬ P x) ∨ (exists x, lo <= x < hi ∧ P x).
Proof.
  intros Hdec lo hi. induction hi as [|hi [Hnone|(x & Hx & HP)]].
  - left. intros x Hx. lia.
  - destruct (Hdec hi) as [HP|HnP].
    + destruct (decide (lo <= hi)) as [Hle|Hgt].
      * right. exists hi. split; [lia|done].
      * left. intros x Hx. lia.
    + left. intros x Hx. destruct (decide (x = hi)) as [->|Hne]; [done|].
      apply Hnone. lia.
  - right. exists x. split; [lia|done].
Qed.

Lemma considered_dichotomy mk n actual sd :
  (forall i j, considered mk n i j -> ¬ sign_violation actual sd i j) ∨
  (exists i j, considered mk n i j ∧ sign_violation actual sd i j).
Proof.
  destruct (bounded_dichotomy
              (fun i => exists j, i + 1 <= j < n ∧ sign_violation actual sd i j))
    with (lo := 0) (hi := Z.to_nat (spec_cutoff mk n))
    as [Hnone|(i & Hi & j & Hj & Hbad)].
  - intros i.
    destruct (bounded_dichotomy (fun j => sign_violation actual sd i j)
                (sign_violation_dec actual sd i) (i + 1) n)
      as [Hnone|(j & Hj & Hbad)].
    + right. intros (j & Hj & Hbad). by apply (Hnone j).
    + left. by exists j.
  - left. intros i j [Hi Hj] Hbad. apply (Hnone i); [lia|].
    exists j. split; [lia|done].
  - right. exists i, j. split; [|done]. unfold considered. lia.
Qed.

(** ** The instances *)

Lemma insert_desc_perm preds i l : insert_desc preds i l ≡ₚ i :: l.
Proof.
  induction l as [|j l IH]; [done|]. cbn [insert_desc].
  case_decide; [|done]. rewrite IH. apply Permutation_swap.
Qed.

Lemma argsort_desc_perm t p :
  length t = length p -> argsort_desc t p ≡ₚ seq 0 (length t).
Proof.
  intros _. unfold argsort_desc. generalize (seq 0 (length t)). intros xs.
  induction xs as [|x xs IH]; [done|].
  cbn [foldr]. rewrite insert_desc_perm. by constructor.
Qed.

Lemma example_positions : argsort_desc example_targets example_preds = [0; 1].
Proof.
  unfold argsort_desc, example_targets, example_preds. cbn.
  rewrite decide_False; [done|lra].
Qed.

Lemma example_lookup_targets : example_heap !! 0 = Some example_targets.
Proof. apply lookup_insert_eq. Qed.

Lemma example_lookup_preds : example_heap !! 1 = Some example_preds.
Proof. unfold example_heap. by rewrite lookup_insert_ne, lookup_singleton_eq. Qed.

Lemma example_considered i j :
  considered (Some 1%Z) (length example_targets) i j -> i = 0 ∧ j = 1.
Proof. unfold considered, spec_cutoff. cbn. lia. Qed.

Lemma example_sign_ok i j :
  considered (Some 1%Z) (length example_targets) i j ->
  ¬ sign_violation
      ((λ a, nth a example_targets 0%R) <$> argsort_desc example_targets example_preds)
      (swap_delta (fun _ t => nth 0 t 0%R) 7%Z
         ((λ a, nth a example_targets 0%R) <$> argsort_desc example_targets example_preds))
      i j.
Proof.
  intros [-> ->]%example_considered. rewrite example_positions.
  unfold sign_violation, swap_delta. cbn. lra.
Qed.

Lemma example_sign_broken :
  sign_violation
    ((λ a, nth a example_targets 0%R) <$> argsort_desc example_targets example_preds)
    (swap_delta negated_top_relevance 7%Z
       ((λ a, nth a example_targets 0%R) <$> argsort_desc example_targets example_preds))
    0 1.
Proof.
  rewrite example_positions.
  unfold sign_violation, swap_delta, negated_top_relevance. cbn. lra.
Qed.

Lemma example_run :
  calc_lambdas_deltas argsort_desc top_relevance 7%Z 0 1 example_heap
  = (<[fresh (dom example_heap) :=
         (λ a, nth a example_targets 0%R) <$> argsort_desc example_targets example_preds]>
       example_heap,
     Ok (spec_lambdas_deltas (fun _ t => nth 0 t 0%R) (Some 1%Z) 7%Z
           (argsort_desc example_targets example_preds) example_targets example_preds)).
Proof.
  apply (calc_lambdas_deltas_total_ok argsort_desc argsort_desc_perm);
    [apply example_lookup_targets|apply example_lookup_preds|done|apply example_sign_ok].
Qed.

(** ** The grouping utility *)

Lemma reappears_spec q qs :
  reappears q qs = true <->
  exists j k q', j < k ∧ qs !! j = Some q' ∧ q' ≠ q ∧ qs !! k = Some q.
Proof.
  induction qs as [|q0 qs IH]; cbn [reappears].
  - split; [done|]. by intros (j & k & q' & _ & Hj & _).
  - destruct (decide (q0 = q)) as [->|Hne].
    + rewrite IH. split.
      * intros (j & k & q' & Hjk & Hj & Hq' & Hk).
        exists (S j), (S k), q'. split_and!; [lia|done..].
      * intros (j & k & q' & Hjk & Hj & Hq' & Hk).
        destruct j as [|j]; [cbn in Hj; congruence|].
        destruct k as [|k]; [lia|].
        exists j, k, q'. split_and!; [lia|done..].
    + rewrite bool_decide_eq_true. split.
      * intros (k & Hk)%list_elem_of_lookup_1.
        exists 0, (S k), q0. split_and!; [lia|done..].
      * intros (j & k & q' & Hjk & Hj & Hq' & Hk).
        destruct k as [|k]; [lia|]. by eapply list_elem_of_lookup_2.
Qed.

Lemma contiguous_spec qids : contiguous qids = false <-> interleaved qids.
Proof.
  unfold interleaved. induction qids as [|q qs IH]; cbn [contiguous].
  - split; [done|]. by intros (i & j & k & q & q' & _ & Hi & _).
  - rewrite andb_false_iff, negb_false_iff, reappears_spec, IH. split.
    + intros [(j & k & q' & Hjk & Hj & Hq' & Hk)
             |(i & j & k & q1 & q' & Hijk & Hi & Hj & Hq' & Hk)].
      * exists 0, (S j), (S k), q, q'. repeat split; first [lia|done].
      * exists (S i), (S j), (S k), q1, q'. repeat split; first [lia|done].
    + intros (i & j & k & q1 & q' & Hijk & Hi & Hj & Hq' & Hk).
      destruct j as [|j]; [lia|]. destruct k as [|k]; [lia|].
      destruct i as [|i].
      * left. cbn in Hi. simplify_eq. exists j, k, q'. split_and!; [lia|done..].
      * right. exists i, j, k, q1, q'. repeat split; first [lia|done].
Qed.

Lemma check_qids_spec qids :
  (interleaved qids -> check_qids qids = Raise GroupingError) ∧
  (¬ interleaved qids -> check_qids qids = Ok tt).
Proof.
  unfold check_qids. rewrite <- contiguous_spec.
  destruct (contiguous qids); split; done.
Qed.

Lemma slice_snoc {A} (l : list A) lo hi x :
  lo <= hi -> l !! hi = Some x -> slice lo (S hi) l = slice lo hi l ++ [x].
Proof.
  intros Hle Hx. unfold slice. replace (S hi - lo) with (S (hi - lo)) by lia.
  apply take_S_r. rewrite lookup_drop. by replace (lo + (hi - lo)) with hi by lia.
Qed.

Lemma slice_app {A} (l : list A) a b c :
  a <= b <= c -> slice a b l ++ slice b c l = slice a c l.
Proof.
  intros Habc. unfold slice.
  replace (drop b l) with (drop (b - a) (drop a l))
    by (rewrite drop_drop; f_equal; lia).
  rewrite take_take_drop. f_equal. lia.
Qed.

Lemma slice_all {A} (l : list A) : slice 0 (length l) l = l.
Proof. unfold slice. rewrite drop_0, Nat.sub_0_r. apply firstn_all. Qed.

Lemma groups_from_tiles qs :
  forall cur start i (all : list Z),
    start < i -> drop i all = qs ->
    slice start i all = replicate (i - start) cur ->
    tiles start (groups_from cur start i qs) (length all) ∧
    Forall (λ '(q, a, b), slice a b all = replicate (b - a) q)
           (groups_from cur start i qs).
Proof.
  induction qs as [|q qs IH]; intros cur start i all Hlt Hdrop Hrun.
  - cbn [groups_from tiles]. split; [|by repeat constructor].
    split_and!; [done..|].
    apply drop_nil_inv in Hdrop.
    apply (f_equal length) in Hrun. unfold slice in Hrun.
    rewrite length_take, length_drop, length_replicate in Hrun. lia.
  - assert (all !! i = Some q) as Hi.
    { rewrite <- (Nat.add_0_r i), <- lookup_drop, Hdrop. done. }
    assert (drop (S i) all = qs) as Hdrop'.
    { rewrite (drop_S _ _ _ Hi) in Hdrop. by simplify_eq. }
    cbn [groups_from]. destruct (decide (q = cur)) as [->|Hne].
    + apply IH; [lia|done|].
      rewrite (slice_snoc _ _ _ cur) by (done || lia). rewrite Hrun.
      replace (S i - start) with (S (i - start)) by lia.
      by rewrite replicate_S_end.
    + destruct (IH q i (S i) all) as [Ht Hf]; [lia|done| |].
      * rewrite (slice_snoc _ _ _ q) by (done || lia).
        unfold slice. rewrite Nat.sub_diag, take_0.
        by replace (S i - i) with 1 by lia.
      * cbn [tiles]. split; [done|]. by constructor.
Qed.

Lemma get_groups_tiles qids :
  tiles 0 (get_groups qids) (length qids) ∧
  Forall (λ '(q, a, b), slice a b qids = replicate (b - a) q) (get_groups qids).
Proof.
  destruct qids as [|q qs]; [by split|].
  unfold get_groups. apply groups_from_tiles; [lia|done|done].
Qed.

Lemma tiles_le start gs stop : tiles start gs stop -> start <= stop.
Proof.
  revert start. induction gs as [|[[q a] b] gs IH]; intros start; cbn [tiles].
  - lia.
  - intros (-> & Hab & Ht). apply IH in Ht. lia.
Qed.

(** The slices of the groups, one after the other, are the rows in order. *)
Lemma tiles_slices {A} (l : list A) gs start stop :
  tiles start gs stop ->
  concat (map (λ '(_, a, b), slice a b l) gs) = slice start stop l.
Proof.
  revert start. induction gs as [|[[q a] b] gs IH]; intros start; cbn [tiles].
  - intros ->. unfold slice. by rewrite Nat.sub_diag, take_0.
  - intros (-> & Hab & Ht). cbn [map concat]. rewrite (IH _ Ht).
    apply slice_app. apply tiles_le in Ht. lia.
Qed.

Lemma reappears_replicate q n : reappears q (replicate n q) = false.
Proof. induction n as [|n IH]; [done|]. cbn. by rewrite decide_True. Qed.

Lemma contiguous_replicate q n : contiguous (replicate n q) = true.
Proof.
  induction n as [|n IH]; [done|]. cbn [replicate contiguous].
  by rewrite reappears_replicate, IH.
Qed.

Lemma groups_from_replicate cur start i n :
  groups_from cur start i (replicate n cur) = [(cur, start, i + n)].
Proof.
  revert i. induction n as [|n IH]; intros i; cbn [replicate groups_from].
  - by rewrite Nat.add_0_r.
  - rewrite decide_True by done. rewrite IH. do 2 f_equal. lia.
Qed.

Lemma try_map_length {A B} (f : A -> result B) l ys :
  try_map f l = Ok ys -> length ys = length l.
Proof.
  revert ys. induction l as [|x l IH]; intros ys; cbn [try_map].
  - by intros [= <-].
  - destruct (f x); [|done]. destruct (try_map f l) as [ys'|]; [|done].
    intros [= <-]. cbn. by rewrite (IH ys').
Qed.

(** ** The random baseline *)

Section RandomRun.
Variable rng : Type.
Variable shuffle : rng -> list R -> rng * list R.
Variable ev : qid -> list R -> R.
Variable mk : option Z.
Variables (q : qid) (rc : loc).

Lemma shuffles_length k g t : length (shuffles rng shuffle k g t) = k.
Proof.
  revert g t. induction k as [|k IH]; intros g t; [done|].
  cbn [shuffles]. destruct (shuffle g t) as [g' t']. cbn. by rewrite IH.
Qed.

Lemma shuffles_perm k g t :
  (forall g l, (shuffle g l).2 ≡ₚ l) ->
  Forall (λ s, s ≡ₚ t) (shuffles rng shuffle k g t).
Proof.
  intros Hperm. revert g t. induction k as [|k IH]; intros g t; [constructor|].
  cbn [shuffles]. pose proof (Hperm g t) as Hgt.
  destruct (shuffle g t) as [g' t']. cbn [snd] in Hgt.
  constructor; [done|].
  eapply Forall_impl; [apply IH|]. intros s Hs. cbn in Hs. by rewrite Hs.
Qed.

(** The loop of [calc_random_ev], on any index list: the scores of the
    successive shuffles are appended, the copy holds the last shuffle. *)
Lemma shuffle_loop_run xs :
  forall scores g c (h1 : heap),
    h1 !! rc = Some c ->
    exists c',
      for_each xs
        (fun _ '(scores, g) =>
           let* g' := shuffle_in_place rng shuffle rc g in
           let* shuffled := load rc in
           let* v := lift (evaluate (total_metric ev mk) q shuffled) in
           ret (scores ++ [v], g'))
        (scores, g) h1
      = (<[rc := c']> h1,
         Ok (scores ++ (ev q <$> shuffles rng shuffle (length xs) g c),
             shuffles_state rng shuffle (length xs) g c)).
Proof.
  induction xs as [|x xs IH]; intros scores g c h1 Hc.
  - exists c. cbn. unfold ret. by rewrite insert_id, app_nil_r.
  - cbn [for_each length shuffles shuffles_state].
    destruct (shuffle g c) as [g' c'] eqn:Hsh.
    destruct (IH (scores ++ [ev q c']) g' c' (<[rc := c']> h1)
                (lookup_insert_eq _ _ _)) as (c'' & Hrun).
    exists c''. erewrite bind_ok; [|].
    + rewrite Hrun, insert_insert_eq. do 3 f_equal.
      by rewrite <- app_assoc.
    + unfold bind at 1, shuffle_in_place. rewrite Hc, Hsh.
      erewrite bind_ok; [|apply load_run, lookup_insert_eq].
      reflexivity.
Qed.
End RandomRun.

Lemma rotate_shuffle_perm g l : (rotate_shuffle g l).2 ≡ₚ l.
Proof.
  unfold rotate_shuffle, rotate. cbn [snd].
  rewrite Permutation_app_comm. by rewrite take_drop.
Qed.

(** Whatever the metric does, [calc_random_ev] writes to its copy only. *)
Lemma bind_inv {A B} (I : heap -> Prop) (c : M A) (k : A -> M B) :
  (forall h h' r, I h -> c h = (h', r) -> I h') ->
  (forall a h h' r, I h -> k a h = (h', r) -> I h') ->
  forall h h' r, I h -> bind c k h = (h', r) -> I h'.
Proof.
  intros Hc Hk h h' r HI. unfold bind.
  destruct (c h) as [h1 [a|e]] eqn:Hch.
  - apply Hk. by eapply Hc.
  - intros [= <- <-]. by eapply Hc.
Qed.

Lemma calc_random_ev_frame (rng : Type) (shuffle : rng -> list R -> rng * list R)
    (m : Metric) q (targets : loc) (g : rng) (h h' : heap) res :
  calc_random_ev rng shuffle m q targets g h = (h', res) ->
  forall r, is_Some (h !! r) -> h' !! r = h !! r.
Proof.
  unfold calc_random_ev, bind at 1, load at 1.
  destruct (h !! targets) as [t|] eqn:Ht; [|by intros [= <- <-]].
  unfold bind at 1, alloc at 1.
  set (rc := fresh (dom h)). set (h1 := <[rc := t]> h).
  intros Hrun.
  set (I := fun hx : heap => forall r, r ≠ rc -> hx !! r = h1 !! r).
  assert (I h') as Hinv; [|
    intros r Hr; pose proof (fresh_ne h r Hr) as Hne;
    rewrite (Hinv r Hne); unfold h1; by rewrite lookup_insert_ne].
  eapply (bind_inv I); [| |by intros r|exact Hrun].
  - intros hx0 hx1 rx. apply (for_each_inv I).
    intros _ [scores g0] hx hx' res' _.
    apply (bind_inv I);
      [|intros g'; apply (bind_inv I); [|intros sh; apply (bind_inv I)]].
    + intros hy hy' ry Hy. unfold shuffle_in_place.
      destruct (hy !! rc) as [a|]; [|by intros [= <- <-]].
      destruct (shuffle g0 a) as [g1 a1]. intros [= <- <-] r Hne.
      rewrite lookup_insert_ne by done. by apply Hy.
    + intros hy hy' ry Hy. unfold load.
      destruct (hy !! rc); by intros [= <- <-].
    + intros hy hy' ry Hy. unfold lift. by intros [= <- <-].
    + intros v hy hy' ry Hy. unfold ret. by intros [= <- <-].
  - intros out hy hy' ry Hy. unfold ret. by intros [= <- <-].
Qed.

(** The example in numbers: the swap of the two items raises the metric by
    1, so the first item is pushed down and the second up by [expit 1]. *)
Lemma example_values :
  spec_lambdas_deltas (fun _ t => nth 0 t 0%R) (Some 1%Z) 7%Z
    (argsort_desc example_targets example_preds) example_targets example_preds
  = ([(- expit 1)%R; expit 1],
     [((1 - expit 1) * expit 1)%R; ((1 - expit 1) * expit 1)%R]).
Proof.
  rewrite example_positions.
  unfold spec_lambdas_deltas, rank_pairs, range, example_targets, example_preds.
  cbn [length spec_cutoff]. change (Z.to_nat _) with 1.
  cbn [Nat.sub Nat.add seq mbind list_bind fmap list_fmap app foldl].
  unfold spec_pair, swap_delta, exchange. cbn [nth lookup list_lookup insert list_insert].
  rewrite (decide_False (P := (0 = 1)%R)) by lra.
  rewrite (decide_False (P := (1 - 0 = 0)%R)) by lra.
  rewrite (decide_True (P := (0 < 1)%R)) by lra.
  unfold add_at, zeros. cbn [fst snd replicate nth insert list_insert].
  replace (2 - 1)%R with 1%R by lra.
  repeat f_equal; lra.
Qed.

Example check_qids_rejects : check_qids [1; 1; 2; 1]%Z = Raise GroupingError.
Proof. reflexivity. Qed.

Example check_qids_accepts : check_qids [1; 1; 2; 2; 3]%Z = Ok tt.
Proof. reflexivity. Qed.

Example get_groups_example :
  get_groups [1; 1; 2; 2; 3]%Z = [(1%Z, 0, 2); (2%Z, 2, 4); (3%Z, 4, 5)].
Proof. reflexivity. Qed.

(** The base class has no [evaluate]: every method that calls it raises. *)
Lemma calc_swap_deltas_base q r (h : heap) t :
  h !! r = Some t -> calc_swap_deltas base_metric q r h = (h, Raise NotImplementedError).
Proof.
  intros Hr. unfold calc_swap_deltas.
  by rewrite (bind_ok _ _ _ _ _ (load_run _ _ _ Hr)).
Qed.

(** ** More on exchanges *)

Lemma exchange_perm t i j : exchange t i j ≡ₚ t.
Proof.
  unfold exchange. destruct (t !! i) as [x|] eqn:Hi; [|done].
  destruct (t !! j) as [y|] eqn:Hj; [|done].
  by apply Permutation_insert_swap.
Qed.

Lemma exchange_same t i j : t !! i = t !! j -> exchange t i j = t.
Proof.
  intros Heq. unfold exchange. rewrite <- Heq.
  destruct (t !! i) as [x|] eqn:Hi; [|done].
  rewrite (list_insert_id t i x Hi). apply list_insert_id. by rewrite <- Heq.
Qed.

(** With an empty range of rows, or of columns in every row, the loops of
    [calc_swap_deltas] do nothing. *)
Lemma swap_loops_no_pairs m q r orig k n D (h : heap) :
  k = 0 ∨ n <= 1 -> k <= n ->
  for_each (range 0 k)
    (fun i => for_each (range (i + 1) n) (swap_delta_step m q r orig i)) D h
  = (h, Ok D).
Proof.
  intros [->|Hn] Hk; [done|].
  destruct k as [|[|k]]; [done| |lia].
  destruct n as [|[|n]]; [lia|done|lia].
Qed.

(** The run of [calc_swap_deltas] on [picky_metric] and the array [0; 1]. *)
Lemma picky_run :
  calc_swap_deltas picky_metric 7%Z 0 {[ 0 := [0; 1]%R ]}
  = (<[0 := exchange [0; 1]%R 0 1]> {[ 0 := [0; 1]%R ]}, Raise (MetricError 0)).
Proof.
  unfold calc_swap_deltas.
  erewrite bind_ok; [|apply load_run, lookup_singleton_eq].
  erewrite (bind_ok (lift _)); [|unfold lift, picky_metric; cbn;
                                 rewrite decide_False by lra; reflexivity].
  cbn [length effective_k picky_metric max_k range seq Nat.sub Nat.add for_each].
  apply bind_raise, bind_raise.
  erewrite swap_delta_step_run;
    [|apply lookup_singleton_eq|cbn; lia|cbn; lia|reflexivity|cbn; lia].
  cbn. by rewrite decide_True by done.
Qed.

Lemma sum_list_perm l1 l2 : l1 ≡ₚ l2 -> sum_list l1 = sum_list l2.
Proof.
  induction 1 as [|x l1 l2 _ IH|x y l|l1 l2 l3 _ IH1 _ IH2]; cbn.
  - done.
  - unfold sum_list in IH. by rewrite IH.
  - lra.
  - congruence.
Qed.

(** ** Pairs that contribute nothing *)

Lemma elem_of_rank_pairs k n i j :
  (i, j) ∈ rank_pairs k n -> i < k ∧ i < j < n.
Proof.
  unfold rank_pairs. rewrite list_elem_of_bind.
  intros (i' & Hin & Hi'). apply elem_of_range in Hi'.
  apply list_elem_of_fmap in Hin as (j' & [= -> ->] & Hj'). apply elem_of_range in Hj'.
  lia.
Qed.

Lemma foldl_fixed {A B} (f : A -> B -> A) (l : list B) (acc : A) :
  (forall x, x ∈ l -> f acc x = acc) -> foldl f acc l = acc.
Proof.
  induction l as [|x l IH]; intros Hf; [done|]. cbn [foldl].
  rewrite Hf by set_solver. apply IH. intros y Hy. apply Hf. set_solver.
Qed.

(** When every considered pair has equal targets or a zero swap delta, the
    fold of the contributions is the pair of zero vectors. *)
Lemma spec_lambdas_deltas_skip ev mk q positions t p :
  (forall i j, considered mk (length t) i j ->
     nth i ((λ a, nth a t 0%R) <$> positions) 0%R
     = nth j ((λ a, nth a t 0%R) <$> positions) 0%R ∨
     swap_delta ev q ((λ a, nth a t 0%R) <$> positions) i j = 0%R) ->
  spec_lambdas_deltas ev mk q positions t p = (zeros (length t), zeros (length t)).
Proof.
  intros Hskip. unfold spec_lambdas_deltas. apply foldl_fixed.
  intros [i j] [Hi Hj]%elem_of_rank_pairs. unfold spec_pair.
  destruct (Hskip i j) as [Heq|Hz]; [unfold considered; lia| |].
  - by rewrite decide_True.
  - case_decide; [done|]. by rewrite decide_True.
Qed.

Lemma fmap_nth_seq (t : list R) : (λ a, nth a t 0%R) <$> seq 0 (length t) = t.
Proof.
  apply list_eq. intros i. rewrite list_lookup_fmap.
  destruct (decide (i < length t)) as [Hi|Hi].
  - rewrite lookup_seq_lt by done. cbn. by rewrite lookup_nth_R.
  - rewrite lookup_seq_ge by lia. cbn. symmetry. apply lookup_ge_None. lia.
Qed.

Lemma nth_fmap_R (f : nat -> R) (l : list nat) i :
  i < length l -> nth i (f <$> l) 0%R = f (nth i l 0).
Proof.
  intros Hi. destruct (lookup_lt_is_Some_2 l i Hi) as [a Ha].
  rewrite (nth_lookup_Some _ _ _ _ Ha).
  apply nth_lookup_Some. by rewrite list_lookup_fmap, Ha.
Qed.

Lemma nth_elem_of_R (t : list R) a : a < length t -> nth a t 0%R ∈ t.
Proof. intros Ha. eapply list_elem_of_lookup_2. by apply lookup_nth_R. Qed.

Section RankOrder.
Variable pos : list R -> list R -> list nat.
Hypothesis Hpos : forall t p, length t = length p -> pos t p ≡ₚ seq 0 (length t).
Variables t p : list R.
Hypothesis Hlen : length t = length p.

(** The rank-ordered targets are the targets, permuted. *)
Lemma actual_perm : (λ a, nth a t 0%R) <$> pos t p ≡ₚ t.
Proof. rewrite (Hpos t p Hlen). by rewrite fmap_nth_seq. Qed.

Lemma actual_nth_elem_of i :
  i < length t -> nth i ((λ a, nth a t 0%R) <$> pos t p) 0%R ∈ t.
Proof.
  intros Hi. rewrite nth_fmap_R by (by rewrite (positions_length pos Hpos)).
  apply nth_elem_of_R. apply (positions_lt pos Hpos t p Hlen).
  destruct (lookup_lt_is_Some_2 (pos t p) i) as [a Ha];
    [by rewrite (positions_length pos Hpos)|].
  rewrite (nth_lookup_Some _ _ _ _ Ha). by eapply list_elem_of_lookup_2.
Qed.
End RankOrder.

(** ** More on the runs that return *)

Lemma calc_lambdas_deltas_frame_any pos m q rt rp (h : heap) r :
  is_Some (h !! r) -> (calc_lambdas_deltas pos m q rt rp h).1 !! r = h !! r.
Proof.
  intros Hr.
  destruct (h !! rt) as [t|] eqn:Ht.
  - destruct (h !! rp) as [p|] eqn:Hp.
    + destruct (calc_lambdas_deltas pos m q rt rp h) as [h' res] eqn:Hrun.
      exact (calc_lambdas_deltas_frame pos m q rt rp h t p Ht Hp h' res r Hrun Hr).
    + unfold calc_lambdas_deltas.
      rewrite (bind_ok _ _ _ _ _ (load_run _ _ _ Ht)).
      unfold bind, load. by rewrite Hp.
  - unfold calc_lambdas_deltas, bind, load. by rewrite Ht.
Qed.

Lemma calc_lambdas_deltas_ok_inv pos m q rt rp h h' res t :
  h !! rt = Some t ->
  calc_lambdas_deltas pos m q rt rp h = (h', Ok res) ->
  exists p act sd,
    h !! rp = Some p ∧ fancy_index t (pos t p) = Ok act ∧
    lambda_loops_pure act (pos t p) p sd (effective_k m (length t)) (length t) = Ok res.
Proof.
  intros Ht Hrun.
  destruct (calc_lambdas_deltas_ok_lookup _ _ _ _ _ _ _ _ Hrun) as (t' & p & Ht' & Hp).
  assert (t' = t) as -> by congruence.
  pose proof (calc_lambdas_deltas_run pos m q rt rp h t p Ht Hp) as Hc.
  destruct (fancy_index t (pos t p)) as [act|e] eqn:Hfi; [|by rewrite Hc in Hrun].
  destruct (calc_swap_deltas m q _ _) as [h2 [sd|e]]; [|by rewrite Hc in Hrun].
  destruct Hc as (_ & _ & Hc). rewrite Hc in Hrun.
  exists p, act, sd. simplify_eq. by split_and!.
Qed.

Lemma fancy_index_lookup t idx act :
  fancy_index t idx = Ok act ->
  forall i ai, act !! i = Some ai -> exists a, idx !! i = Some a ∧ t !! a = Some ai.
Proof.
  revert act. induction idx as [|a idx IH]; intros act; cbn [fancy_index].
  - intros [= <-] i ai Hi. by rewrite lookup_nil in Hi.
  - destruct (t !! a) as [x|] eqn:Ha; [|done].
    destruct (fancy_index t idx) as [xs|]; [|done].
    intros [= <-] [|i] ai Hi.
    + cbn in Hi. simplify_eq. by exists a.
    + cbn in Hi. by apply (IH xs).
Qed.

Lemma vec_get_ok v i x : vec_get v i = Ok x -> v !! i = Some x.
Proof. unfold vec_get. destruct (v !! i); by intros [= <-]. Qed.

Lemma idx_get_ok (l : list nat) i a : idx_get l i = Ok a -> l !! i = Some a.
Proof. unfold idx_get. destruct (l !! i); by intros [= <-]. Qed.

(** Two updates in a row, at different rows, read at a row [x]. *)
Lemma vec_upd_twice_lookup v a b f1 f2 v1 v2 x :
  a ≠ b -> vec_upd v a f1 = Ok v1 -> vec_upd v1 b f2 = Ok v2 ->
  exists xa xb, v !! a = Some xa ∧ v !! b = Some xb ∧
    v2 !! x = if decide (x = a) then Some (f1 xa)
              else if decide (x = b) then Some (f2 xb) else v !! x.
Proof.
  intros Hab (xa & Ha & ->)%vec_upd_ok (xb & Hb & ->)%vec_upd_ok.
  rewrite list_lookup_insert_ne in Hb by done.
  exists xa, xb. split_and!; [done..|].
  pose proof (lookup_lt_Some _ _ _ Ha) as Hla.
  pose proof (lookup_lt_Some _ _ _ Hb) as Hlb.
  destruct (decide (x = a)) as [->|Hxa].
  - rewrite list_lookup_insert_ne by done. by rewrite list_lookup_insert_eq.
  - destruct (decide (x = b)) as [->|Hxb].
    + rewrite list_lookup_insert_eq; [done|]. by rewrite length_insert.
    + by rewrite !list_lookup_insert_ne.
Qed.

(** A step that returns either skips the pair or moves a positive amount
    [l] of lambda from the less relevant to the more relevant item. *)
Lemma lambda_step_pure_cases act positions p sd i j acc acc' :
  lambda_step_pure act positions p sd i j acc = Ok acc' ->
  acc' = acc ∨
  exists ai aj a b l,
    act !! i = Some ai ∧ act !! j = Some aj ∧ ai ≠ aj ∧
    positions !! i = Some a ∧ positions !! j = Some b ∧ (0 < l)%R ∧
    ((ai < aj)%R ∧
     (exists l1, vec_upd acc.1 a (fun x => x - l)%R = Ok l1 ∧
                 vec_upd l1 b (fun x => x + l)%R = Ok acc'.1) ∨
     (aj < ai)%R ∧
     (exists l1, vec_upd acc.1 a (fun x => x + l)%R = Ok l1 ∧
                 vec_upd l1 b (fun x => x - l)%R = Ok acc'.1)).
Proof.
  unfold lambda_step_pure. intros Hrun.
  destruct (vec_get act i) as [ai|] eqn:Eai; cbn [rbind] in Hrun; [|done].
  destruct (vec_get act j) as [aj|] eqn:Eaj; cbn [rbind] in Hrun; [|done].
  destruct (decide (ai = aj)) as [|Hne]; [left; by simplify_eq|].
  destruct (mat_get sd i j) as [dm|]; cbn [rbind] in Hrun; [|done].
  destruct (decide (dm = 0%R)); [left; by simplify_eq|].
  destruct (idx_get positions i) as [a|] eqn:Ea; cbn [rbind] in Hrun; [|done].
  destruct (idx_get positions j) as [b|] eqn:Eb; cbn [rbind] in Hrun; [|done].
  match type of Hrun with
  | rbind ?c _ = _ => destruct c as [[[logistic l] lambdas]|] eqn:Ebr
  end; cbn [rbind] in Hrun; [|done].
  destruct (vec_upd acc.2 a _) as [d1|]; cbn [rbind] in Hrun; [|done].
  destruct (vec_upd d1 b _) as [d2|]; cbn [rbind] in Hrun; [|done].
  simplify_eq. cbn [fst snd]. right.
  apply vec_get_ok in Eai, Eaj. apply idx_get_ok in Ea, Eb.
  exists ai, aj, a, b, l. split_and!; [done..| |].
  - destruct (decide (ai < aj)%R).
    + unfold assert_that in Ebr.
      destruct (decide (0 < dm)%R); cbn [rbind] in Ebr; [|done].
      destruct (vec_get p a) as [pa|]; cbn [rbind] in Ebr; [|done].
      destruct (vec_get p b) as [pb|]; cbn [rbind] in Ebr; [|done].
      destruct (vec_upd acc.1 a _) as [l1|]; cbn [rbind] in Ebr; [|done].
      destruct (vec_upd l1 b _) as [l2|]; cbn [rbind] in Ebr; [|done].
      simplify_eq. pose proof (expit_range (pa - pb)) as Hex.
      apply Rmult_lt_0_compat; lra.
    + unfold assert_that in Ebr.
      destruct (decide (dm < 0)%R); cbn [rbind] in Ebr; [|done].
      destruct (vec_get p b) as [pb|]; cbn [rbind] in Ebr; [|done].
      destruct (vec_get p a) as [pa|]; cbn [rbind] in Ebr; [|done].
      destruct (vec_upd acc.1 a _) as [l1|]; cbn [rbind] in Ebr; [|done].
      destruct (vec_upd l1 b _) as [l2|]; cbn [rbind] in Ebr; [|done].
      simplify_eq. pose proof (expit_range (pb - pa)) as Hex.
      apply Rmult_lt_0_compat; lra.
  - destruct (decide (ai < aj)%R) as [Hlt|Hnlt].
    + left. split; [done|]. unfold assert_that in Ebr.
      destruct (decide (0 < dm)%R); cbn [rbind] in Ebr; [|done].
      destruct (vec_get p a) as [pa|]; cbn [rbind] in Ebr; [|done].
      destruct (vec_get p b) as [pb|]; cbn [rbind] in Ebr; [|done].
      destruct (vec_upd acc.1 a _) as [l1|] eqn:El1; cbn [rbind] in Ebr; [|done].
      destruct (vec_upd l1 b _) as [l2|] eqn:El2; cbn [rbind] in Ebr; [|done].
      simplify_eq. by exists l1.
    + right. split; [lra|]. unfold assert_that in Ebr.
      destruct (decide (dm < 0)%R); cbn [rbind] in Ebr; [|done].
      destruct (vec_get p b) as [pb|]; cbn [rbind] in Ebr; [|done].
      destruct (vec_get p a) as [pa|]; cbn [rbind] in Ebr; [|done].
      destruct (vec_upd acc.1 a _) as [l1|] eqn:El1; cbn [rbind] in Ebr; [|done].
      destruct (vec_upd l1 b _) as [l2|] eqn:El2; cbn [rbind] in Ebr; [|done].
      simplify_eq. by exists l1.
Qed.

(** The lambda of a most relevant item never goes below zero, that of a
    least relevant item never above. *)
Lemma lambda_step_pure_extreme (t : list R) act positions p sd i j acc acc' x tx :
  (forall i ai, act !! i = Some ai ->
     exists a, positions !! i = Some a ∧ t !! a = Some ai) ->
  t !! x = Some tx ->
  lambda_step_pure act positions p sd i j acc = Ok acc' ->
  ((forall y, y ∈ t -> (y <= tx)%R) ->
   (forall lx, acc.1 !! x = Some lx -> (0 <= lx)%R) ->
   forall lx, acc'.1 !! x = Some lx -> (0 <= lx)%R) ∧
  ((forall y, y ∈ t -> (tx <= y)%R) ->
   (forall lx, acc.1 !! x = Some lx -> (lx <= 0)%R) ->
   forall lx, acc'.1 !! x = Some lx -> (lx <= 0)%R).
Proof.
  intros Hrel Hx Hrun.
  destruct (lambda_step_pure_cases _ _ _ _ _ _ _ _ Hrun)
    as [->|(ai & aj & a & b & l & Hai & Haj & Hne & Ha & Hb & Hl & Hcase)]; [done|].
  destruct (Hrel i ai Hai) as (a' & Ha' & Hta).
  destruct (Hrel j aj Haj) as (b' & Hb' & Htb).
  assert (a' = a) as -> by congruence. assert (b' = b) as -> by congruence.
  assert (a ≠ b) as Hab by (intros ->; congruence).
  pose proof (list_elem_of_lookup_2 _ _ _ Hta) as Hina.
  pose proof (list_elem_of_lookup_2 _ _ _ Htb) as Hinb.
  destruct Hcase as [[Hlt (l1 & E1 & E2)]|[Hlt (l1 & E1 & E2)]];
    destruct (vec_upd_twice_lookup _ _ _ _ _ _ _ x Hab E1 E2)
      as (xa & xb & Hxa & Hxb & Hlook);
    split; intros Hext IH lx; rewrite Hlook;
    repeat case_decide; simplify_eq; intros Hlx; simplify_eq.
  all: pose proof (Hext _ Hina); pose proof (Hext _ Hinb).
  all: try lra.
  all: try (specialize (IH _ Hxa); lra).
  all: try (specialize (IH _ Hxb); lra).
  all: by apply IH.
Qed.

Lemma lambda_loops_pure_extreme (t : list R) act positions p sd k ns lam hes x tx :
  (forall i ai, act !! i = Some ai ->
     exists a, positions !! i = Some a ∧ t !! a = Some ai) ->
  t !! x = Some tx ->
  lambda_loops_pure act positions p sd k ns = Ok (lam, hes) ->
  ((forall y, y ∈ t -> (y <= tx)%R) -> forall lx, lam !! x = Some lx -> (0 <= lx)%R) ∧
  ((forall y, y ∈ t -> (tx <= y)%R) -> forall lx, lam !! x = Some lx -> (lx <= 0)%R).
Proof.
  intros Hrel Hx Hrun. unfold lambda_loops_pure in Hrun.
  assert (forall lx, (zeros ns) !! x = Some lx -> lx = 0%R) as Hz.
  { intros lx [-> _]%lookup_replicate. done. }
  split; intros Hext.
  - set (P := fun acc : list R * list R =>
                forall lx, acc.1 !! x = Some lx -> (0 <= lx)%R).
    change (P (lam, hes)).
    eapply (rfor_each_inv P); [| |exact Hrun].
    + intros i acc acc' _ HP Hi. revert acc acc' HP Hi.
      apply (rfor_each_inv P). intros j acc acc' _ HP Hj.
      exact (proj1 (lambda_step_pure_extreme _ _ _ _ _ _ _ _ _ _ _ Hrel Hx Hj) Hext HP).
    + intros lx Hlx. rewrite (Hz _ Hlx). lra.
  - set (P := fun acc : list R * list R =>
                forall lx, acc.1 !! x = Some lx -> (lx <= 0)%R).
    change (P (lam, hes)).
    eapply (rfor_each_inv P); [| |exact Hrun].
    + intros i acc acc' _ HP Hi. revert acc acc' HP Hi.
      apply (rfor_each_inv P). intros j acc acc' _ HP Hj.
      exact (proj2 (lambda_step_pure_extreme _ _ _ _ _ _ _ _ _ _ _ Hrel Hx Hj) Hext HP).
    + intros lx Hlx. rewrite (Hz _ Hlx). lra.
Qed.

(** ** Means *)

Lemma mean_singleton v : mean [v] = v.
Proof. unfold mean. cbn. lra. Qed.

(** ** Two queries *)

Lemma reappears_app_replicate q n l :
  reappears q (replicate n q ++ l) = reappears q l.
Proof. induction n as [|n IH]; [done|]. cbn. by rewrite decide_True. Qed.

Lemma contiguous_two q1 q2 n1 n2 :
  q1 ≠ q2 -> contiguous (replicate n1 q1 ++ replicate n2 q2) = true.
Proof.
  intros Hne. induction n1 as [|n1 IH]; [apply contiguous_replicate|].
  cbn [replicate app contiguous]. rewrite IH, reappears_app_replicate.
  destruct n2 as [|n2]; [done|]. cbn [replicate reappears].
  rewrite decide_False by done.
  rewrite bool_decide_eq_false_2; [done|].
  intros [-> _]%elem_of_replicate. done.
Qed.

Lemma groups_from_app_replicate cur start i n l :
  groups_from cur start i (replicate n cur ++ l) = groups_from cur start (i + n) l.
Proof.
  revert i. induction n as [|n IH]; intros i; cbn [replicate app groups_from].
  - by rewrite Nat.add_0_r.
  - rewrite decide_True by done. rewrite IH. f_equal. lia.
Qed.

Lemma get_groups_two q1 q2 n1 n2 :
  q1 ≠ q2 ->
  get_groups (replicate (S n1) q1 ++ replicate (S n2) q2)
  = [(q1, 0, S n1); (q2, S n1, S n1 + S n2)].
Proof.
  intros Hne. cbn [replicate app get_groups].
  rewrite groups_from_app_replicate. cbn [groups_from].
  rewrite decide_False by done. rewrite groups_from_replicate.
  change (1 + n1) with (S n1).
  by replace (S (S n1) + n2) with (S n1 + S n2) by lia.
Qed.

Lemma slice_app_l {A} (l1 l2 : list A) n :
  length l1 = n -> slice 0 n (l1 ++ l2) = l1.
Proof.
  intros <-. unfold slice. rewrite drop_0, Nat.sub_0_r. by rewrite take_app_length.
Qed.

Lemma slice_app_r {A} (l1 l2 : list A) n1 n2 :
  length l1 = n1 -> length l2 = n2 -> slice n1 (n1 + n2) (l1 ++ l2) = l2.
Proof.
  intros <- <-. unfold slice. rewrite drop_app_length.
  replace (length l1 + length l2 - length l1) with (length l2) by lia.
  apply firstn_all.
Qed.

(** ** The random baseline of a corpus *)

Lemma for_items_inv {X A} (I : heap -> Prop) (xs : list X) (body : X -> A -> M A) :
  (forall x acc h h' res, I h -> body x acc h = (h', res) -> I h') ->
  forall acc h h' res, I h -> for_items xs body acc h = (h', res) -> I h'.
Proof.
  intros Hb. induction xs as [|x xs IH]; intros acc h h' res Hh Hrun.
  - cbn in Hrun. unfold ret in Hrun. by simplify_eq.
  - cbn [for_items] in Hrun. unfold bind in Hrun.
    destruct (body x acc h) as [h1 [acc1|e]] eqn:Hx.
    + eapply IH; [eapply Hb; [exact Hh|exact Hx]|exact Hrun].
    + simplify_eq. eapply Hb; [exact Hh|exact Hx].
Qed.

Lemma calc_random_ev_view_frame (rng : Type) (shuffle : rng -> list R -> rng * list R)
    (m : Metric) q (targets : loc) (a b : nat) (g : rng) (h h' : heap) res :
  calc_random_ev_view rng shuffle m q targets a b g h = (h', res) ->
  forall r, is_Some (h !! r) -> h' !! r = h !! r.
Proof.
  unfold calc_random_ev_view, bind at 1, load at 1.
  destruct (h !! targets) as [t|] eqn:Ht; [|by intros [= <- <-]].
  unfold bind at 1, alloc at 1.
  set (rc := fresh (dom h)). set (h1 := <[rc := slice a b t]> h).
  intros Hrun.
  set (I := fun hx : heap => forall r, r ≠ rc -> hx !! r = h1 !! r).
  assert (I h') as Hinv; [|
    intros r Hr; pose proof (fresh_ne h r Hr) as Hne;
    rewrite (Hinv r Hne); unfold h1; by rewrite lookup_insert_ne].
  eapply (bind_inv I); [| |by intros r|exact Hrun].
  - intros hx0 hx1 rx. apply (for_each_inv I).
    intros _ [scores g0] hx hx' res' _.
    apply (bind_inv I);
      [|intros g'; apply (bind_inv I); [|intros sh; apply (bind_inv I)]].
    + intros hy hy' ry Hy. unfold shuffle_in_place.
      destruct (hy !! rc) as [c|]; [|by intros [= <- <-]].
      destruct (shuffle g0 c) as [g1 c1]. intros [= <- <-] r Hne.
      rewrite lookup_insert_ne by done. by apply Hy.
    + intros hy hy' ry Hy. unfold load.
      destruct (hy !! rc); by intros [= <- <-].
    + intros hy hy' ry Hy. unfold lift. by intros [= <- <-].
    + intros v hy hy' ry Hy. unfold ret. by intros [= <- <-].
  - intros out hy hy' ry Hy. unfold ret. by intros [= <- <-].
Qed.

Lemma calc_mean_random_frame (rng : Type) (shuffle : rng -> list R -> rng * list R)
    (m : Metric) (qids : list Z) (targets : loc) (g : rng) (h h' : heap) res :
  calc_mean_random rng shuffle m qids targets g h = (h', res) ->
  forall r, is_Some (h !! r) -> h' !! r = h !! r.
Proof.
  set (I := fun hx : heap => forall r, is_Some (h !! r) -> hx !! r = h !! r).
  intros Hrun. change (I h'). revert Hrun. unfold calc_mean_random.
  apply (bind_inv I); [| |by intros r].
  - intros hy hy' ry Hy. unfold lift. by intros [= <- <-].
  - intros _ hx0 hx1 rx. apply (bind_inv I).
    + apply (for_items_inv I). intros [[q a] b] [scores g0] hx hx' res'.
      apply (bind_inv I).
      * intros hy hy' ry Hy Hview r Hr.
        rewrite (calc_random_ev_view_frame _ _ _ _ _ _ _ _ _ _ _ Hview r).
        -- by apply Hy.
        -- rewrite (Hy r Hr). exact Hr.
      * intros ev hy hy' ry Hy. unfold ret. by intros [= <- <-].
    + intros out hy hy' ry Hy. unfold ret. by intros [= <- <-].
Qed.

(** The view of all rows is the array itself. *)
Lemma calc_random_ev_view_all (rng : Type) (shuffle : rng -> list R -> rng * list R)
    (m : Metric) q (targets : loc) (g : rng) (h : heap) (t : list R) :
  h !! targets = Some t ->
  calc_random_ev_view rng shuffle m q targets 0 (length t) g h
  = calc_random_ev rng shuffle m q targets g h.
Proof.
  intros Ht. unfold calc_random_ev_view, calc_random_ev.
  rewrite !(bind_ok _ _ _ _ _ (load_run _ _ _ Ht)). by rewrite slice_all.
Qed.

(** ** Queries without pairs *)

Lemma swap_deltas_without_pairs (m : Metric) q (r : loc) (h : heap)
    (t : list R) (v : R) :
  h !! r = Some t -> evaluate m q t = Ok v ->
  effective_k m (length t) = 0 ∨ length t <= 1 ->
  calc_swap_deltas m q r h = (h, Ok (zeros2 (length t) (length t))).
Proof.
  intros Hr Hev Hnone. unfold calc_swap_deltas.
  rewrite (bind_ok _ _ _ _ _ (load_run _ _ _ Hr)).
  rewrite (bind_ok (lift (evaluate m q t)) _ h h v) by (unfold lift; by rewrite Hev).
  apply swap_loops_no_pairs; [done|apply effective_k_le].
Qed.

Lemma lambda_loops_pure_no_pairs act positions p sd k ns :
  k = 0 ∨ ns <= 1 -> k <= ns ->
  lambda_loops_pure act positions p sd k ns = Ok (zeros ns, zeros ns).
Proof.
  intros [->|Hn] Hk; [done|].
  destruct k as [|[|k]]; [done| |lia].
  destruct ns as [|[|ns]]; [lia|done|lia].
Qed.

Lemma effective_k_nonpositive m n k :
  max_k m = Some k -> (k <= 0)%Z -> effective_k m n = 0.
Proof.
  intros Hk Hle. unfold effective_k. rewrite Hk.
  destruct (Z.ltb_spec (Z.of_nat n) k); lia.
Qed.

(** ** The first exception in the swap loops *)

Lemma range_split lo j hi :
  lo <= j < hi -> range lo hi = range lo j ++ j :: range (j + 1) hi.
Proof.
  intros H. unfold range.
  replace (hi - lo) with ((j - lo) + S (hi - (j + 1))) by lia.
  rewrite seq_app. cbn [seq].
  replace (lo + (j - lo)) with j by lia.
  by replace (S j) with (j + 1) by lia.
Qed.

Lemma for_each_app {A} (xs ys : list nat) (body : nat -> A -> M A) (acc : A) h :
  for_each (xs ++ ys) body acc h
  = bind (for_each xs body acc) (for_each ys body) h.
Proof.
  revert acc h. induction xs as [|x xs IH]; intros acc h; [done|].
  cbn [app for_each]. unfold bind.
  destruct (body x acc h) as [h' [acc'|e]]; [|done].
  rewrite IH. by unfold bind.
Qed.

Section SwapFirstRaise.
Variable m : Metric.
Variables (q : qid) (r : loc) (h : heap) (t : list R).
Hypothesis Hr : h !! r = Some t.

Let n := length t.

Lemma swap_inner_returns orig i js :
  i < n -> (forall j, j ∈ js -> j < n) ->
  (forall j, j ∈ js -> is_ok (evaluate m q (exchange t i j))) ->
  forall D, shape n D ->
  exists D', for_each js (swap_delta_step m q r orig i) D h = (h, Ok D') ∧
             shape n D'.
Proof.
  intros Hi Hjs Hok D HD.
  destruct (swap_inner_general m q r h t Hr orig i js Hi Hjs D HD)
    as [HOk|(i' & j' & e & [-> Hin] & He & _)]; [done|].
  specialize (Hok _ Hin). by rewrite He in Hok.
Qed.

Lemma swap_inner_first_raise orig i js1 j js2 e :
  i < n -> (forall j', j' ∈ js1 -> j' < n) -> j < n ->
  (forall j', j' ∈ js1 -> is_ok (evaluate m q (exchange t i j'))) ->
  evaluate m q (exchange t i j) = Raise e ->
  forall D, shape n D ->
  for_each (js1 ++ j :: js2) (swap_delta_step m q r orig i) D h
  = (<[r := exchange t i j]> h, Raise e).
Proof.
  intros Hi Hjs Hj Hok He D HD. rewrite for_each_app.
  destruct (swap_inner_returns orig i js1 Hi Hjs Hok D HD) as (D1 & Hrun & HD1).
  rewrite (bind_ok _ _ _ _ _ Hrun). cbn [for_each]. apply bind_raise.
  destruct (lookup_lt_is_Some_2 D1 i) as [row Hrow]; [by rewrite (proj1 HD1)|].
  pose proof (shape_row _ _ _ _ HD1 Hrow) as Hlen.
  rewrite (swap_delta_step_run _ _ _ _ _ _ _ _ _ _ Hr Hi Hj Hrow) by lia.
  by rewrite He.
Qed.

Lemma swap_outer_returns orig rows :
  (forall i, i ∈ rows -> i < n) ->
  (forall i j, i ∈ rows -> i < j < n -> is_ok (evaluate m q (exchange t i j))) ->
  forall D, shape n D ->
  exists D',
    for_each rows
      (fun i => for_each (range (i + 1) n) (swap_delta_step m q r orig i)) D h
    = (h, Ok D') ∧ shape n D'.
Proof.
  intros Hrows Hok D HD.
  destruct (swap_outer_general m q r h t Hr orig rows Hrows D HD)
    as [HOk|(i' & j' & e & [Hin Hlt] & He & _)]; [done|].
  specialize (Hok _ _ Hin Hlt). by rewrite He in Hok.
Qed.

Lemma swap_outer_first_raise orig rows1 i rows2 j e :
  (forall i', i' ∈ rows1 -> i' < n) -> i < j < n ->
  (forall i' j', i' ∈ rows1 -> i' < j' < n ->
     is_ok (evaluate m q (exchange t i' j'))) ->
  (forall j', i < j' < j -> is_ok (evaluate m q (exchange t i j'))) ->
  evaluate m q (exchange t i j) = Raise e ->
  forall D, shape n D ->
  for_each (rows1 ++ i :: rows2)
    (fun i => for_each (range (i + 1) n) (swap_delta_step m q r orig i)) D h
  = (<[r := exchange t i j]> h, Raise e).
Proof.
  intros Hrows Hij Hok1 Hok2 He D HD. rewrite for_each_app.
  destruct (swap_outer_returns orig rows1 Hrows Hok1 D HD) as (D1 & Hrun & HD1).
  rewrite (bind_ok _ _ _ _ _ Hrun). cbn [for_each]. apply bind_raise.
  rewrite (range_split (i + 1) j n) by lia.
  apply swap_inner_first_raise; [lia| |lia| |done|done].
  - intros j' [_ Hj']%elem_of_range. lia.
  - intros j' Hj'%elem_of_range. apply Hok2. lia.
Qed.

(** [evaluate] raises on the array as it is handed in. *)
Lemma calc_swap_deltas_raise_first e :
  evaluate m q t = Raise e -> calc_swap_deltas m q r h = (h, Raise e).
Proof.
  intros He. unfold calc_swap_deltas.
  rewrite (bind_ok _ _ _ _ _ (load_run _ _ _ Hr)).
  apply bind_raise. unfold lift. by rewrite He.
Qed.

(** [evaluate] returns on the array and on every exchange of the loops. *)
Lemma calc_swap_deltas_returns :
  is_ok (evaluate m q t) ->
  (forall i j, i < effective_k m n -> i < j < n ->
     is_ok (evaluate m q (exchange t i j))) ->
  exists D, calc_swap_deltas m q r h = (h, Ok D).
Proof.
  intros Hok0 Hok.
  destruct (calc_swap_deltas_outcome m q r h t Hr)
    as [(e & He & _)|[(D & Hout & _)|(i & j & e & [Hi Hj] & He & _)]].
  - by rewrite He in Hok0.
  - by exists D.
  - specialize (Hok _ _ Hi Hj). by rewrite He in Hok.
Qed.

(** The pair (i, j) is the first of the loops on which [evaluate] raises. *)
Lemma calc_swap_deltas_raise_at i j e :
  is_ok (evaluate m q t) ->
  i < effective_k m n -> i < j < n ->
  (forall i' j', i' < effective_k m n -> i' < j' < n ->
     i' < i ∨ (i' = i ∧ j' < j) ->
     is_ok (evaluate m q (exchange t i' j'))) ->
  evaluate m q (exchange t i j) = Raise e ->
  calc_swap_deltas m q r h = (<[r := exchange t i j]> h, Raise e).
Proof.
  intros Hok0 Hi Hj Hbefore He. unfold calc_swap_deltas.
  rewrite (bind_ok _ _ _ _ _ (load_run _ _ _ Hr)).
  destruct (evaluate m q t) as [orig|e0] eqn:Hev; [|done].
  erewrite (bind_ok (lift _)); [|reflexivity].
  fold n. pose proof (effective_k_le m n) as Hle.
  rewrite (range_split 0 i (effective_k m n)) by lia.
  apply swap_outer_first_raise; [|done| | |done|apply shape_zeros2].
  - intros i' [_ Hi']%elem_of_range. lia.
  - intros i' j' [_ Hi']%elem_of_range Hj'. apply Hbefore; lia.
  - intros j' Hj'. apply Hbefore; lia.
Qed.
End SwapFirstRaise.

(** ** The corpus cut into blocks *)

Lemma slice_middle {A} (l1 l2 l3 : list A) :
  slice (length l1) (length l1 + length l2) (l1 ++ l2 ++ l3) = l2.
Proof.
  unfold slice. rewrite drop_app_length.
  replace (length l1 + length l2 - length l1) with (length l2) by lia.
  by rewrite take_app_length.
Qed.

Lemma groups_from_blocks bs : forall cur start i,
  Forall (λ '(_, tb, pb), tb ≠ [] ∧ length pb = length tb) bs ->
  adjacent_differ (cur :: map (λ '(q, _, _), q) bs) ->
  groups_from cur start i (block_qids bs) = (cur, start, i) :: block_groups i bs.
Proof.
  induction bs as [|[[q tb] pb] bs IH]; intros cur start i Hne Hadj; [done|].
  apply Forall_cons in Hne as [[Htb _] Hne].
  cbn [map adjacent_differ] in Hadj. destruct Hadj as [Hq Hadj].
  unfold block_qids. cbn [map concat block_groups]. fold (block_qids bs).
  destruct tb as [|x tb]; [done|]. cbn [length replicate app groups_from].
  rewrite decide_False by done.
  rewrite groups_from_app_replicate.
  replace (S i + length tb) with (i + S (length tb)) by lia.
  by rewrite (IH q i _ Hne Hadj).
Qed.

Lemma get_groups_blocks bs :
  Forall (λ '(_, tb, pb), tb ≠ [] ∧ length pb = length tb) bs ->
  adjacent_differ (map (λ '(q, _, _), q) bs) ->
  get_groups (block_qids bs) = block_groups 0 bs.
Proof.
  destruct bs as [|[[q tb] pb] bs]; [done|]. intros Hne Hadj.
  pose proof Hne as [[Htb _] Hne']%Forall_cons.
  unfold block_qids. cbn [map concat block_groups]. fold (block_qids bs).
  destruct tb as [|x tb]; [done|]. cbn [length replicate app get_groups].
  rewrite groups_from_app_replicate.
  by rewrite (groups_from_blocks bs q 0 _ Hne' Hadj).
Qed.

Section Blocks.
Variable get_sorted_y : list R -> list R -> result (list R).
Variable m : Metric.

Lemma try_map_blocks bs : forall pt pp,
  length pp = length pt ->
  Forall (λ '(_, tb, pb), tb ≠ [] ∧ length pb = length tb) bs ->
  try_map (fun '(q, a, b) =>
             evaluate_preds get_sorted_y m q
               (slice a b (pt ++ block_targets bs))
               (slice a b (pp ++ block_preds bs)))
          (block_groups (length pt) bs)
  = block_scores get_sorted_y m bs.
Proof.
  induction bs as [|[[q tb] pb] bs IH]; intros pt pp Hlen Hne; [done|].
  apply Forall_cons in Hne as [[_ Hpb] Hne].
  unfold block_targets, block_preds.
  cbn [map concat block_groups try_map block_scores].
  fold (block_targets bs) (block_preds bs).
  rewrite slice_middle.
  replace (slice (length pt) (length pt + length tb) (pp ++ pb ++ block_preds bs))
    with pb by (rewrite <- Hlen, <- Hpb; symmetry; apply slice_middle).
  destruct (evaluate_preds get_sorted_y m q tb pb) as [v|e]; [|done].
  specialize (IH (pt ++ tb) (pp ++ pb)).
  rewrite !length_app, <- !app_assoc in IH.
  rewrite IH; [done|lia|done].
Qed.

Lemma block_scores_length bs vs :
  block_scores get_sorted_y m bs = Ok vs -> length vs = length bs.
Proof.
  revert vs. induction bs as [|[[q tb] pb] bs IH]; intros vs; cbn [block_scores].
  - by intros [= <-].
  - destruct (evaluate_preds get_sorted_y m q tb pb); [|done].
    destruct (block_scores get_sorted_y m bs) as [vs'|]; [|done].
    intros [= <-]. cbn. by rewrite (IH vs').
Qed.

Lemma block_scores_ok bs scores :
  Forall2 (λ '(q, tb, pb) v, evaluate_preds get_sorted_y m q tb pb = Ok v) bs scores ->
  block_scores get_sorted_y m bs = Ok scores.
Proof.
  induction 1 as [|[[q tb] pb] v bs scores Hv _ IH]; [done|].
  cbn [block_scores]. by rewrite Hv, IH.
Qed.

Lemma block_scores_raise bs1 q tb pb bs2 e :
  Forall (λ '(q', tb', pb'), is_ok (evaluate_preds get_sorted_y m q' tb' pb')) bs1 ->
  evaluate_preds get_sorted_y m q tb pb = Raise e ->
  block_scores get_sorted_y m (bs1 ++ (q, tb, pb) :: bs2) = Raise e.
Proof.
  intros Hok He. induction Hok as [|[[q' tb'] pb'] bs1 Hv _ IH].
  - cbn [app block_scores]. by rewrite He.
  - cbn [app block_scores].
    destruct (evaluate_preds get_sorted_y m q' tb' pb'); [|done].
    by rewrite IH.
Qed.

Lemma calc_mean_blocks bs qids targets preds :
  ¬ interleaved qids -> query_blocks bs qids targets preds ->
  calc_mean get_sorted_y m qids targets preds
  = match block_scores get_sorted_y m bs with
    | Ok vs => Ok (sum_list vs / INR (length bs))%R
    | Raise e => Raise e
    end.
Proof.
  intros Hni (<- & <- & <- & Hne & Hadj).
  unfold calc_mean. rewrite (proj2 (check_qids_spec _) Hni).
  rewrite (get_groups_blocks _ Hne Hadj).
  pose proof (try_map_blocks bs [] [] eq_refl Hne) as Hmap.
  cbn [app length] in Hmap. rewrite Hmap.
  destruct (block_scores get_sorted_y m bs) as [vs|e] eqn:Hs; [|done].
  unfold mean. by rewrite (block_scores_length _ _ Hs).
Qed.
End Blocks.

Lemma tiles_bounds start gs stop :
  tiles start gs stop -> Forall (λ '(_, a, b), start <= a ∧ a < b ∧ b <= stop) gs.
Proof.
  revert start. induction gs as [|[[q a] b] gs IH]; intros start; cbn [tiles].
  - by constructor.
  - intros (-> & Hab & Ht). constructor.
    + apply tiles_le in Ht. lia.
    + eapply Forall_impl; [exact (IH _ Ht)|]. intros [[q' a'] b']. lia.
Qed.

Lemma groups_from_adjacent qs : forall cur start i,
  exists rest,
    map (λ '(q, _, _), q) (groups_from cur start i qs) = cur :: rest ∧
    adjacent_differ (cur :: rest).
Proof.
  induction qs as [|q qs IH]; intros cur start i; cbn [groups_from].
  - by exists [].
  - destruct (decide (q = cur)) as [->|Hne]; [apply IH|].
    destruct (IH q i (S i)) as (rest & Hmap & Hadj).
    exists (q :: rest). cbn [map]. rewrite Hmap. split; [done|].
    cbn [adjacent_differ]. split; [done|exact Hadj].
Qed.

Lemma get_groups_adjacent qids :
  adjacent_differ (map (λ '(q, _, _), q) (get_groups qids)).
Proof.
  destruct qids as [|q qs]; [done|]. unfold get_groups.
  destruct (groups_from_adjacent qs q 0 1) as (rest & -> & Hadj). exact Hadj.
Qed.

(** The groups of the grouping utility cut the corpus into its blocks. *)
Lemma query_blocks_exist qids targets preds :
  length qids = length targets -> length targets = length preds ->
  query_blocks
    (map (λ '(q, a, b), (q, slice a b targets, slice a b preds)) (get_groups qids))
    qids targets preds.
Proof.
  intros Hqt Htp.
  destruct (get_groups_tiles qids) as [Htiles Hsame].
  pose proof (tiles_bounds _ _ _ Htiles) as Hb.
  assert (forall a b, a < b <= length qids ->
            length (slice a b targets) = b - a ∧
            length (slice a b preds) = b - a) as Hlen.
  { intros a b Hab. unfold slice. rewrite !length_take, !length_drop. lia. }
  unfold query_blocks, block_qids, block_targets, block_preds.
  rewrite !map_map. split_and!.
  - rewrite <- (slice_all qids) at 2.
    rewrite <- (tiles_slices qids _ _ _ Htiles). f_equal.
    apply Forall_fmap_ext_1.
    eapply Forall_impl; [apply Forall_and; split; [exact Hb|exact Hsame]|].
    intros [[q a] b] [(_ & Hab & Hbn) Hrun].
    rewrite Hrun. f_equal. apply (Hlen a b). lia.
  - transitivity (slice 0 (length qids) targets); [|rewrite Hqt; apply slice_all].
    rewrite <- (tiles_slices targets _ _ _ Htiles). f_equal.
    apply map_ext. by intros [[q a] b].
  - transitivity (slice 0 (length qids) preds);
      [|rewrite Hqt, Htp; apply slice_all].
    rewrite <- (tiles_slices preds _ _ _ Htiles). f_equal.
    apply map_ext. by intros [[q a] b].
  - apply Forall_fmap. eapply Forall_impl; [exact Hb|].
    intros [[q a] b] (_ & Hab & Hbn). cbn.
    destruct (Hlen a b) as [Ht Hp]; [lia|]. split; [|lia].
    intros Hnil. rewrite Hnil in Ht. cbn in Ht. lia.
  - erewrite map_ext; [apply (get_groups_adjacent qids)|]. by intros [[q a] b].
Qed.

(** ** Rounding in the lambda loop *)

(** The run on the targets 0.0, 0.2, 0.4 and equal predictions calls the
    logistic function at 0.0 only: every function that returns 0.5 there
    gives the same lambdas. *)
Lemma rounding_run_any_logistic (expit : PrimFloat.float -> PrimFloat.float) :
  expit PrimFloat.zero = Binary64.half ->
  exists deltas,
    Binary64.calc_lambdas_deltas expit Binary64.argsort_desc
      Binary64.top_relevance 7%Z Binary64.rounding_targets Binary64.rounding_preds
    = Ok (Binary64.rounding_lambdas, deltas).
Proof.
  intros H. cbv in H. eexists. cbv. rewrite !H. vm_compute. reflexivity.
Qed.

(** * The claims *)

(** C1. On a metric whose [evaluate] is a total pure function and a
    rank-ordered array [t] of length n, [calc_swap_deltas] returns an
    n-by-n matrix. With K the cutoff ([max_k()] when it is defined and less
    than n, n otherwise), the entry (i, j) with i < K and i < j is
    [evaluate] on [t] with positions i and j exchanged minus [evaluate] on
    [t]; every other entry is zero. *)
Theorem calc_swap_deltas_matrix ev mk q (targets : loc) (h : heap) (t : list R) :
  h !! targets = Some t ->
  exists D,
    calc_swap_deltas (total_metric ev mk) q targets h = (h, Ok D) ∧
    length D = length t ∧
    (forall row, row ∈ D -> length row = length t) ∧
    forall i j, i < length t -> j < length t ->
      mat_get D i j = Ok (spec_entry ev mk q t i j).
Proof.
  intros Hr.
  destruct (calc_swap_deltas_total ev mk q targets h t Hr) as (D & Hrun & [HL HD] & Hget).
  exists D. split_and!; [done..| |].
  - intros row Hrow. by apply (proj1 (Forall_forall _ _) HD).
  - intros i j Hi Hj. rewrite (Hget i j Hi Hj). f_equal. unfold spec_entry.
    destruct (decide (i < effective_k (total_metric ev mk) (length t) ∧ i < j))
      as [[Hk Hij]|Hn].
    + rewrite decide_True; [done|].
      split; [exact (proj1 (effective_k_spec ev mk _ _) Hk)|done].
    + rewrite decide_False; [done|]. intros [Hk Hij]. apply Hn.
      split; [exact (proj2 (effective_k_spec ev mk _ _) Hk)|done].
Qed.

Lemma calc_swap_deltas_matrix_witness :
  ({[ 0 := [0; 1; 1]%R ]} : heap) !! 0 = Some [0; 1; 1]%R ∧
  exists D,
    calc_swap_deltas (total_metric (fun _ t => nth 0 t 0%R) (Some 1%Z)) 7%Z 0
      {[ 0 := [0; 1; 1]%R ]} = ({[ 0 := [0; 1; 1]%R ]}, Ok D) ∧
    length D = 3 ∧
    (forall row, row ∈ D -> length row = 3) ∧
    forall i j, i < 3 -> j < 3 ->
      mat_get D i j
      = Ok (spec_entry (fun _ t => nth 0 t 0%R) (Some 1%Z) 7%Z [0; 1; 1]%R i j).
Proof.
  split; [apply lookup_singleton_eq|].
  apply (calc_swap_deltas_matrix (fun _ t => nth 0 t 0%R) (Some 1%Z) 7%Z 0
           {[ 0 := [0; 1; 1]%R ]} [0; 1; 1]%R).
  apply lookup_singleton_eq.
Defined.

(** C2. For a metric whose [evaluate] returns, and targets and preds of
    equal length n, the two vectors [calc_lambdas_deltas] returns have
    length n, are indexed by the original rows, and are computed so: with
    [actual = targets[positions]] and the swap deltas of [actual], every
    pair i in [0, K), j in (i, n) with [actual[i] != actual[j]] and a
    non-zero swap delta contributes
    [l = sigmoid(preds[a] - preds[b]) * delta], subtracted at [a] and added
    at [b], when [actual[i] < actual[j]], and
    [l = sigmoid(preds[b] - preds[a]) * (- delta)], added at [a] and
    subtracted at [b], otherwise; [(1 - logistic) * l] is added to the
    hessian at both [a] and [b]. The call returns whenever no considered
    pair breaks the sign convention. *)
Theorem calc_lambdas_deltas_refines
    (pos : list R -> list R -> list nat) ev mk q (targets preds : loc)
    (h : heap) (t p : list R) :
  (forall t p, length t = length p -> pos t p ≡ₚ seq 0 (length t)) ->
  h !! targets = Some t -> h !! preds = Some p -> length t = length p ->
  (forall res,
     (calc_lambdas_deltas pos (total_metric ev mk) q targets preds h).2 = Ok res ->
     res = spec_lambdas_deltas ev mk q (pos t p) t p) ∧
  ((forall i j, considered mk (length t) i j ->
      ¬ sign_violation ((λ a, nth a t 0%R) <$> pos t p)
          (swap_delta ev q ((λ a, nth a t 0%R) <$> pos t p)) i j) ->
   (calc_lambdas_deltas pos (total_metric ev mk) q targets preds h).2
   = Ok (spec_lambdas_deltas ev mk q (pos t p) t p)) ∧
  length (spec_lambdas_deltas ev mk q (pos t p) t p).1 = length t ∧
  length (spec_lambdas_deltas ev mk q (pos t p) t p).2 = length t.
Proof.
  intros Hpos Ht Hp Hlen. split_and!.
  - intros res.
    destruct (considered_dichotomy mk (length t) ((λ a, nth a t 0%R) <$> pos t p)
                (swap_delta ev q ((λ a, nth a t 0%R) <$> pos t p)))
      as [Hgood|Hbad].
    + rewrite (calc_lambdas_deltas_total_ok pos Hpos ev mk q targets preds h t p
                 Ht Hp Hlen Hgood).
      cbn [snd]. by intros [= <-].
    + by rewrite (calc_lambdas_deltas_total_raise pos Hpos ev mk q targets preds h t p
                    Ht Hp Hlen Hbad).
  - intros Hgood.
    by rewrite (calc_lambdas_deltas_total_ok pos Hpos ev mk q targets preds h t p
                  Ht Hp Hlen Hgood).
  - apply spec_lambdas_deltas_length.
  - apply spec_lambdas_deltas_length.
Qed.

Lemma calc_lambdas_deltas_refines_witness :
  (calc_lambdas_deltas argsort_desc top_relevance 7%Z 0 1 example_heap).2
  = Ok (spec_lambdas_deltas (fun _ t => nth 0 t 0%R) (Some 1%Z) 7%Z
          (argsort_desc example_targets example_preds) example_targets example_preds).
Proof.
  destruct (calc_lambdas_deltas_refines argsort_desc (fun _ t => nth 0 t 0%R)
              (Some 1%Z) 7%Z 0 1 example_heap example_targets example_preds
              argsort_desc_perm example_lookup_targets example_lookup_preds eq_refl)
    as (_ & Hreturns & _).
  apply Hreturns, example_sign_ok.
Defined.

(** C5. In [calc_lambdas_deltas], on a metric whose [evaluate] returns: if
    some considered pair with [actual[i] != actual[j]] and a non-zero swap
    delta has [actual[i] < actual[j]] with a delta [<= 0], or
    [actual[i] > actual[j]] with a delta [>= 0], the call raises
    AssertionError and produces no result; if no considered pair does, the
    call returns. *)
Theorem calc_lambdas_deltas_sign_assertion
    (pos : list R -> list R -> list nat) ev mk q (targets preds : loc)
    (h : heap) (t p : list R) :
  (forall t p, length t = length p -> pos t p ≡ₚ seq 0 (length t)) ->
  h !! targets = Some t -> h !! preds = Some p -> length t = length p ->
  ((exists i j, considered mk (length t) i j ∧
      sign_violation ((λ a, nth a t 0%R) <$> pos t p)
        (swap_delta ev q ((λ a, nth a t 0%R) <$> pos t p)) i j) ->
   (calc_lambdas_deltas pos (total_metric ev mk) q targets preds h).2
   = Raise AssertionError) ∧
  ((forall i j, considered mk (length t) i j ->
      ¬ sign_violation ((λ a, nth a t 0%R) <$> pos t p)
          (swap_delta ev q ((λ a, nth a t 0%R) <$> pos t p)) i j) ->
   is_ok (calc_lambdas_deltas pos (total_metric ev mk) q targets preds h).2).
Proof.
  intros Hpos Ht Hp Hlen. split.
  - intros Hbad.
    by rewrite (calc_lambdas_deltas_total_raise pos Hpos ev mk q targets preds h t p
                  Ht Hp Hlen Hbad).
  - intros Hgood.
    by rewrite (calc_lambdas_deltas_total_ok pos Hpos ev mk q targets preds h t p
                  Ht Hp Hlen Hgood).
Qed.

Lemma calc_lambdas_deltas_sign_assertion_witness :
  (calc_lambdas_deltas argsort_desc (total_metric negated_top_relevance (Some 1%Z))
     7%Z 0 1 example_heap).2 = Raise AssertionError.
Proof.
  apply (calc_lambdas_deltas_sign_assertion argsort_desc negated_top_relevance
           (Some 1%Z) 7%Z 0 1 example_heap example_targets example_preds).
  - apply argsort_desc_perm.
  - apply example_lookup_targets.
  - apply example_lookup_preds.
  - reflexivity.
  - exists 0, 1. split; [|apply example_sign_broken].
    unfold considered, example_targets. split; [reflexivity|cbn; lia].
Defined.

(** C9, as the spec has it: the entries of the returned lambda vector sum
    to exactly zero. Over binary64, with the relevance of the top item as
    the metric, cut off at rank 1, the targets 0.0, 0.2, 0.4 and three
    equal predictions, [calc_lambdas_deltas] returns the lambdas
    -0.30000000000000004, 0.1, 0.2: the pair (0, 1) takes 0.1 from entry 0,
    the pair (0, 2) takes 0.2 from it, and -0.1 - 0.2 is rounded. The sum of
    the three entries is -2^-55, as numbers and as float64 adds them. *)
Lemma lambdas_sum_rounding_residue :
  exists deltas,
    Binary64.calc_lambdas_deltas Binary64.expit_at_zero Binary64.argsort_desc
      Binary64.top_relevance 7%Z Binary64.rounding_targets Binary64.rounding_preds
    = Ok (Binary64.rounding_lambdas, deltas) ∧
    Binary64.exact_sum_scaled Binary64.rounding_lambdas = Some (- 2 ^ 1019)%Z ∧
    (- 2 ^ 1019 ≠ 0)%Z ∧
    PrimFloat.eqb (Binary64.float_sum Binary64.rounding_lambdas) PrimFloat.zero = false.
Proof.
  eexists. split_and!.
  - vm_compute. reflexivity.
  - vm_compute. reflexivity.
  - discriminate.
  - vm_compute. reflexivity.
Qed.

(** C9, amended. With the float64 operations read as exact operations on
    real numbers: whenever [calc_lambdas_deltas] returns, the entries of the
    lambda vector sum to zero, because what a pair adds to one item it
    subtracts from the other. *)
Theorem lambdas_sum_zero (pos : list R -> list R -> list nat) (m : Metric) q
    (targets preds : loc) (h h' : heap) (lambdas deltas : list R) :
  calc_lambdas_deltas pos m q targets preds h = (h', Ok (lambdas, deltas)) ->
  sum_list lambdas = 0%R.
Proof.
  intros Hrun.
  destruct (calc_lambdas_deltas_ok_loops _ _ _ _ _ _ _ _ Hrun)
    as (act & positions & p & sd & k & ns & Hloops).
  by destruct (lambda_loops_pure_inv _ _ _ _ _ _ _ _ Hloops) as (? & _).
Qed.

Lemma lambdas_sum_zero_witness :
  sum_list (spec_lambdas_deltas (fun _ t => nth 0 t 0%R) (Some 1%Z) 7%Z
              (argsort_desc example_targets example_preds)
              example_targets example_preds).1 = 0%R.
Proof.
  eapply (lambdas_sum_zero argsort_desc top_relevance 7%Z 0 1 example_heap).
  rewrite example_run. f_equal. f_equal. apply surjective_pairing.
Defined.

(** C10. Whenever [calc_lambdas_deltas] returns, every entry of the hessian
    vector is non-negative: the assertions make each [l] positive, the
    logistic lies between 0 and 1, and [(1 - logistic) * l] is only added. *)
Theorem deltas_nonnegative (pos : list R -> list R -> list nat) (m : Metric) q
    (targets preds : loc) (h h' : heap) (lambdas deltas : list R) :
  calc_lambdas_deltas pos m q targets preds h = (h', Ok (lambdas, deltas)) ->
  Forall (λ x, 0 <= x)%R deltas.
Proof.
  intros Hrun.
  destruct (calc_lambdas_deltas_ok_loops _ _ _ _ _ _ _ _ Hrun)
    as (act & positions & p & sd & k & ns & Hloops).
  by destruct (lambda_loops_pure_inv _ _ _ _ _ _ _ _ Hloops) as (_ & Hnn & _).
Qed.

Lemma deltas_nonnegative_witness :
  Forall (λ x, 0 <= x)%R
    (spec_lambdas_deltas (fun _ t => nth 0 t 0%R) (Some 1%Z) 7%Z
       (argsort_desc example_targets example_preds)
       example_targets example_preds).2.
Proof.
  eapply (deltas_nonnegative argsort_desc top_relevance 7%Z 0 1 example_heap).
  rewrite example_run. f_equal. f_equal. apply surjective_pairing.
Defined.

(** C3, as the spec has it: the targets array is the one passed in after
    [calc_swap_deltas] finishes, also when [evaluate] raises in the loop.
    On [picky_metric] and the array [0; 1] the call to [evaluate] on the
    exchanged array raises, and the array is left exchanged. *)
Lemma calc_swap_deltas_not_restored :
  ({[ 0 := [0; 1]%R ]} : heap) !! 0 = Some [0; 1]%R ∧
  exists h',
    calc_swap_deltas picky_metric 7%Z 0 {[ 0 := [0; 1]%R ]}
    = (h', Raise (MetricError 0)) ∧
    h' !! 0 = Some [1; 0]%R ∧
    h' !! 0 ≠ Some [0; 1]%R.
Proof.
  split; [apply lookup_singleton_eq|].
  exists (<[0 := exchange [0; 1]%R 0 1]> {[ 0 := [0; 1]%R ]}).
  split_and!.
  - unfold calc_swap_deltas.
    erewrite bind_ok; [|apply load_run, lookup_singleton_eq].
    erewrite (bind_ok (lift _)); [|unfold lift, picky_metric; cbn;
                                   rewrite decide_False by lra; reflexivity].
    cbn [length effective_k picky_metric max_k range seq Nat.sub Nat.add for_each].
    apply bind_raise, bind_raise.
    erewrite swap_delta_step_run;
      [|apply lookup_singleton_eq|cbn; lia|cbn; lia|reflexivity|cbn; lia].
    cbn. by rewrite decide_True by done.
  - by rewrite lookup_insert_eq.
  - rewrite lookup_insert_eq. cbn. intros [= H1 H2]. lra.
Qed.

(** C3, amended. Let [t] be the targets array as it is handed in, n its
    length and K the effective cutoff.
    - When [evaluate] raises on [t] itself, that exception leaves
      [calc_swap_deltas] and the array is the one passed in.
    - When [evaluate] returns on [t] and on every exchange of the loops
      (entries i and j with i < K, i < j < n), [calc_swap_deltas] returns
      normally and the array is the one passed in.
    - When [evaluate] returns on [t] and the pair (i, j) is the first of
      the loops, in their order, whose exchange makes [evaluate] raise, that
      exception leaves the method and the array is left with its entries i
      and j exchanged: it is not restored.
    - There is no other outcome. *)
Theorem calc_swap_deltas_restore (m : Metric) q (targets : loc) (h : heap)
    (t : list R) :
  h !! targets = Some t ->
  (forall e, evaluate m q t = Raise e ->
     calc_swap_deltas m q targets h = (h, Raise e)) ∧
  (is_ok (evaluate m q t) ->
   (forall i j, i < effective_k m (length t) -> i < j < length t ->
      is_ok (evaluate m q (exchange t i j))) ->
   exists D, calc_swap_deltas m q targets h = (h, Ok D)) ∧
  (forall i j e,
     is_ok (evaluate m q t) ->
     i < effective_k m (length t) -> i < j < length t ->
     (forall i' j', i' < effective_k m (length t) -> i' < j' < length t ->
        i' < i ∨ (i' = i ∧ j' < j) ->
        is_ok (evaluate m q (exchange t i' j'))) ->
     evaluate m q (exchange t i j) = Raise e ->
     calc_swap_deltas m q targets h
     = (<[targets := exchange t i j]> h, Raise e)) ∧
  ((exists D, calc_swap_deltas m q targets h = (h, Ok D)) ∨
   (exists e, evaluate m q t = Raise e ∧
              calc_swap_deltas m q targets h = (h, Raise e)) ∨
   (exists i j e, i < effective_k m (length t) ∧ i < j < length t ∧
      evaluate m q (exchange t i j) = Raise e ∧
      calc_swap_deltas m q targets h
      = (<[targets := exchange t i j]> h, Raise e))).
Proof.
  intros Hr. split_and!.
  - intros e. by apply calc_swap_deltas_raise_first.
  - by apply calc_swap_deltas_returns.
  - intros i j e. by apply calc_swap_deltas_raise_at.
  - destruct (calc_swap_deltas_outcome m q targets h t Hr)
      as [He|[(D & Hout & _)|(i & j & e & [Hi Hj] & He & Hout)]].
    + right. by left.
    + left. by exists D.
    + right. right. by exists i, j, e.
Qed.

(** On [picky_metric] and the array [0; 1] the pair (0, 1) is the first,
    and only, pair of the loops: the exception leaves the method and the
    array is left as [1; 0]. *)
Lemma calc_swap_deltas_restore_witness :
  ({[ 0 := [0; 1]%R ]} : heap) !! 0 = Some [0; 1]%R ∧
  is_ok (evaluate picky_metric 7%Z [0; 1]%R) ∧
  evaluate picky_metric 7%Z (exchange [0; 1]%R 0 1) = Raise (MetricError 0) ∧
  calc_swap_deltas picky_metric 7%Z 0 {[ 0 := [0; 1]%R ]}
  = (<[0 := exchange [0; 1]%R 0 1]> {[ 0 := [0; 1]%R ]}, Raise (MetricError 0)).
Proof.
  assert (evaluate picky_metric 7%Z (exchange [0; 1]%R 0 1)
          = Raise (MetricError 0)) as Hraise.
  { cbn. by rewrite decide_True. }
  assert (is_ok (evaluate picky_metric 7%Z [0; 1]%R)) as Hok.
  { cbn. by rewrite decide_False by lra. }
  split_and!; [apply lookup_singleton_eq|exact Hok|exact Hraise|].
  destruct (calc_swap_deltas_restore picky_metric 7%Z 0 {[ 0 := [0; 1]%R ]}
              [0; 1]%R (lookup_singleton_eq _ _)) as (_ & _ & Hat & _).
  apply (Hat 0 1 (MetricError 0) Hok); [cbn; lia|cbn; lia| |exact Hraise].
  intros i' j' _ Hj' Hlt. exfalso. lia.
Defined.

(** C4. When they return normally, [calc_swap_deltas] and
    [calc_lambdas_deltas] leave the caller's targets array as it was, in
    content and order. *)
Theorem targets_unchanged (pos : list R -> list R -> list nat) (m : Metric) q
    (targets preds : loc) (h : heap) (t : list R) :
  h !! targets = Some t ->
  (is_ok (calc_swap_deltas m q targets h).2 ->
   (calc_swap_deltas m q targets h).1 !! targets = Some t) ∧
  (is_ok (calc_lambdas_deltas pos m q targets preds h).2 ->
   (calc_lambdas_deltas pos m q targets preds h).1 !! targets = Some t).
Proof.
  intros Ht. split.
  - destruct (calc_swap_deltas m q targets h) as [h' [D|e]] eqn:Hrun; [|done].
    intros _. by destruct (calc_swap_deltas_ok m q targets h t Ht h' D Hrun) as [-> _].
  - destruct (calc_lambdas_deltas pos m q targets preds h) as [h' [res|e]] eqn:Hrun;
      [|done].
    intros _.
    destruct (calc_lambdas_deltas_ok_lookup _ _ _ _ _ _ _ _ Hrun)
      as (t' & p & Ht' & Hp).
    cbn [fst].
    rewrite (calc_lambdas_deltas_frame pos m q targets preds h t' p Ht' Hp
               h' (Ok res) targets Hrun); [done|by eexists].
Qed.

Lemma targets_unchanged_witness :
  (calc_swap_deltas top_relevance 7%Z 0 example_heap).1 !! 0 = Some example_targets ∧
  (calc_lambdas_deltas argsort_desc top_relevance 7%Z 0 1 example_heap).1 !! 0
  = Some example_targets.
Proof.
  destruct (targets_unchanged argsort_desc top_relevance 7%Z 0 1 example_heap
              example_targets example_lookup_targets) as [Hswap Hlam].
  split.
  - apply Hswap.
    destruct (calc_swap_deltas_total (fun _ t => nth 0 t 0%R) (Some 1%Z) 7%Z 0
                example_heap example_targets example_lookup_targets)
      as (D & Hrun & _).
    unfold top_relevance. by rewrite Hrun.
  - apply Hlam. by rewrite example_run.
Defined.

(** C6. On a non-empty corpus whose three columns have the same length,
    [calc_mean] first checks that the qids are grouped and passes the
    GroupingError of the grouping utility on when some qid comes back after
    a different one. Otherwise the corpus is cut into its query blocks (the
    maximal runs of rows with one qid, in the order they are met), and for
    every such cut:
    - when [evaluate_preds] returns on every block, [calc_mean] returns the
      sum of the block scores divided by the number of blocks, whatever the
      sizes of the blocks;
    - when it raises on a block and returns on the blocks before it, that
      exception leaves [calc_mean].
    The groups of the grouping utility tile the rows, each holds one qid,
    and their slices are the rows of targets and preds in order. *)
Theorem calc_mean_macro_average (get_sorted_y : list R -> list R -> result (list R))
    (m : Metric) (qids : list Z) (targets preds : list R) :
  length qids = length targets -> length targets = length preds -> qids ≠ [] ->
  (interleaved qids ->
   calc_mean get_sorted_y m qids targets preds = Raise GroupingError) ∧
  (exists bs, bs ≠ [] ∧ query_blocks bs qids targets preds) ∧
  (¬ interleaved qids ->
   forall bs, query_blocks bs qids targets preds ->
     (forall scores,
        Forall2 (λ '(q, tb, pb) v, evaluate_preds get_sorted_y m q tb pb = Ok v)
                bs scores ->
        calc_mean get_sorted_y m qids targets preds
        = Ok (sum_list scores / INR (length bs))%R) ∧
     (forall bs1 q tb pb bs2 e,
        bs = bs1 ++ (q, tb, pb) :: bs2 ->
        Forall (λ '(q', tb', pb'),
                  is_ok (evaluate_preds get_sorted_y m q' tb' pb')) bs1 ->
        evaluate_preds get_sorted_y m q tb pb = Raise e ->
        calc_mean get_sorted_y m qids targets preds = Raise e)) ∧
  tiles 0 (get_groups qids) (length qids) ∧
  Forall (λ '(q, a, b), slice a b qids = replicate (b - a) q) (get_groups qids) ∧
  concat (map (λ '(_, a, b), slice a b targets) (get_groups qids)) = targets ∧
  concat (map (λ '(_, a, b), slice a b preds) (get_groups qids)) = preds.
Proof.
  intros Hqt Htp Hne.
  destruct (check_qids_spec qids) as [Hbad Hgood].
  destruct (get_groups_tiles qids) as [Htiles Hsame].
  split_and!; [| | |done|done| |].
  - intros Hi. unfold calc_mean. by rewrite (Hbad Hi).
  - eexists. split; [|exact (query_blocks_exist qids targets preds Hqt Htp)].
    destruct qids as [|q0 qs]; [done|]. unfold get_groups.
    destruct (groups_from_adjacent qs q0 0 1) as (rest & Hmap & _).
    intros Hnil%map_eq_nil. by rewrite Hnil in Hmap.
  - intros Hni bs Hbs.
    rewrite (calc_mean_blocks get_sorted_y m bs qids targets preds Hni Hbs).
    split.
    + intros scores Hscores. by rewrite (block_scores_ok _ _ _ _ Hscores).
    + intros bs1 q tb pb bs2 e -> Hok He.
      by rewrite (block_scores_raise _ _ _ _ _ _ _ _ Hok He).
  - rewrite (tiles_slices targets _ _ _ Htiles), Hqt. apply slice_all.
  - rewrite (tiles_slices preds _ _ _ Htiles), Hqt, Htp. apply slice_all.
Qed.

(** Two queries, of two rows and of one row: the block scores are 1 and 0,
    and the mean is their sum over 2, not a mean over the three rows. *)
Lemma calc_mean_macro_average_witness :
  ¬ interleaved [1; 1; 2]%Z ∧
  query_blocks [(1%Z, [1; 0]%R, [3; 2]%R); (2%Z, [0]%R, [1]%R)]
    [1; 1; 2]%Z [1; 0; 0]%R [3; 2; 1]%R ∧
  calc_mean sorted_by top_relevance [1; 1; 2]%Z [1; 0; 0]%R [3; 2; 1]%R
  = Ok (sum_list [1; 0]%R / INR 2)%R.
Proof.
  assert (¬ interleaved [1; 1; 2]%Z) as Hni.
  { intros Hi%contiguous_spec. vm_compute in Hi. discriminate Hi. }
  assert (query_blocks [(1%Z, [1; 0]%R, [3; 2]%R); (2%Z, [0]%R, [1]%R)]
            [1; 1; 2]%Z [1; 0; 0]%R [3; 2; 1]%R) as Hbs.
  { unfold query_blocks. split_and!; [reflexivity..| |].
    - repeat (constructor; [split; [discriminate|reflexivity]|]). constructor.
    - cbn. split; [lia|exact I]. }
  split_and!; [exact Hni|exact Hbs|].
  destruct (calc_mean_macro_average sorted_by top_relevance
              [1; 1; 2]%Z [1; 0; 0]%R [3; 2; 1]%R eq_refl eq_refl)
    as (_ & _ & Hmean & _); [discriminate|].
  apply (proj1 (Hmean Hni _ Hbs) [1; 0]%R).
  constructor; [|constructor; [|constructor]].
  - unfold evaluate_preds, sorted_by, argsort_desc. cbn.
    rewrite (decide_True (P := 2 = 2)) by reflexivity.
    rewrite (decide_False (P := (3 < 2)%R)) by lra. reflexivity.
  - reflexivity.
Defined.

(** C7. On a corpus whose rows all carry the one qid [q], [calc_mean] is
    [evaluate_preds] on the whole arrays with that qid. *)
Theorem calc_mean_single_query (get_sorted_y : list R -> list R -> result (list R))
    (m : Metric) (q : qid) (n : nat) (targets preds : list R) :
  length targets = S n -> length preds = S n ->
  calc_mean get_sorted_y m (replicate (S n) q) targets preds
  = evaluate_preds get_sorted_y m q targets preds.
Proof.
  intros Ht Hp. unfold calc_mean, check_qids.
  rewrite contiguous_replicate. cbn [replicate get_groups].
  rewrite groups_from_replicate. cbn [try_map].
  assert (forall l : list R, length l = S n -> slice 0 (1 + n) l = l) as Hs.
  { intros l Hl. change (1 + n) with (S n). rewrite <- Hl. apply slice_all. }
  rewrite !Hs by done.
  destruct (evaluate_preds get_sorted_y m q targets preds) as [v|e]; [|done].
  f_equal. unfold mean. cbn. lra.
Qed.

Lemma calc_mean_single_query_witness :
  calc_mean sorted_by top_relevance (replicate 3 5%Z) [0; 1; 1]%R [1; 3; 2]%R
  = evaluate_preds sorted_by top_relevance 5%Z [0; 1; 1]%R [1; 3; 2]%R.
Proof.
  apply (calc_mean_single_query sorted_by top_relevance 5%Z 2); reflexivity.
Defined.

(** C8. On a metric whose [evaluate] returns, [calc_random_ev] returns the
    mean of [evaluate] over exactly 100 shuffles of the targets, each a
    permutation of them, drawn one after the other from the generator; the
    value is a function of the generator state and the targets alone, and
    the caller's array is left as it was. *)
Theorem calc_random_ev_mean (rng : Type) (shuffle : rng -> list R -> rng * list R)
    ev mk q (targets : loc) (g : rng) (h : heap) (t : list R) :
  (forall g l, (shuffle g l).2 ≡ₚ l) ->
  h !! targets = Some t ->
  exists h',
    calc_random_ev rng shuffle (total_metric ev mk) q targets g h
    = (h', Ok (mean (ev q <$> shuffles rng shuffle 100 g t),
               shuffles_state rng shuffle 100 g t)) ∧
    length (shuffles rng shuffle 100 g t) = 100 ∧
    Forall (λ s, s ≡ₚ t) (shuffles rng shuffle 100 g t) ∧
    forall (m : Metric) h'' res,
      calc_random_ev rng shuffle m q targets g h = (h'', res) ->
      h'' !! targets = Some t.
Proof.
  intros Hperm Ht.
  destruct (shuffle_loop_run rng shuffle ev mk q (fresh (dom h)) (range 0 100)
              [] g t (<[fresh (dom h) := t]> h) (lookup_insert_eq _ _ _))
    as (c' & Hloop).
  exists (<[fresh (dom h) := c']> h). split_and!.
  - unfold calc_random_ev.
    rewrite (bind_ok _ _ _ _ _ (load_run _ _ _ Ht)).
    rewrite (bind_ok (alloc t) _ h _ (fresh (dom h)) eq_refl).
    erewrite bind_ok; [|exact Hloop].
    unfold ret. rewrite insert_insert_eq. cbn [fst snd app].
    by replace (length (range 0 100)) with 100 by reflexivity.
  - apply shuffles_length.
  - by apply shuffles_perm.
  - intros m h'' res Hrun.
    rewrite (calc_random_ev_frame _ _ _ _ _ _ _ _ _ Hrun targets); [done|by eexists].
Qed.

Lemma calc_random_ev_mean_witness :
  exists h',
    calc_random_ev nat rotate_shuffle top_relevance 7%Z 0 3 example_heap
    = (h', Ok (mean ((fun t => nth 0 t 0%R) <$>
                       shuffles nat rotate_shuffle 100 3 example_targets),
               shuffles_state nat rotate_shuffle 100 3 example_targets)) ∧
    length (shuffles nat rotate_shuffle 100 3 example_targets) = 100 ∧
    Forall (λ s, s ≡ₚ example_targets)
           (shuffles nat rotate_shuffle 100 3 example_targets) ∧
    forall (m : Metric) h'' res,
      calc_random_ev nat rotate_shuffle m 7%Z 0 3 example_heap = (h'', res) ->
      h'' !! 0 = Some example_targets.
Proof.
  apply (calc_random_ev_mean nat rotate_shuffle (fun _ t => nth 0 t 0%R) (Some 1%Z)
           7%Z 0 3 example_heap example_targets).
  - apply rotate_shuffle_perm.
  - apply example_lookup_targets.
Defined.

(** * Further properties *)

(** X1. [calc_swap_deltas] raises nothing of its own: an exception that
    leaves it is one that [evaluate] raised on a permutation of the targets.
    When [evaluate] returns on every permutation of the targets, so does
    [calc_swap_deltas]. *)
Theorem calc_swap_deltas_raises_only_evaluate (m : Metric) q (targets : loc)
    (h : heap) (t : list R) :
  h !! targets = Some t ->
  (forall e, (calc_swap_deltas m q targets h).2 = Raise e ->
     exists t', t' ≡ₚ t ∧ evaluate m q t' = Raise e) ∧
  ((forall t', t' ≡ₚ t -> is_ok (evaluate m q t')) ->
   is_ok (calc_swap_deltas m q targets h).2).
Proof.
  intros Hr.
  destruct (calc_swap_deltas_outcome m q targets h t Hr)
    as [(e0 & He0 & Hout)|[(D & Hout & _)|(i & j & e0 & _ & He0 & Hout)]];
    rewrite Hout; cbn [snd]; split.
  - intros e [= <-]. by exists t.
  - intros Hall. specialize (Hall t (reflexivity t)). by rewrite He0 in Hall.
  - done.
  - done.
  - intros e [= <-]. exists (exchange t i j). split; [apply exchange_perm|done].
  - intros Hall. specialize (Hall _ (exchange_perm t i j)). by rewrite He0 in Hall.
Qed.

Lemma calc_swap_deltas_raises_only_evaluate_witness :
  exists t', t' ≡ₚ [0; 1]%R ∧ evaluate picky_metric 7%Z t' = Raise (MetricError 0).
Proof.
  destruct (calc_swap_deltas_raises_only_evaluate picky_metric 7%Z 0
              {[ 0 := [0; 1]%R ]} [0; 1]%R (lookup_singleton_eq _ _)) as [Hraise _].
  apply Hraise. by rewrite picky_run.
Defined.

(** X2. When there is no pair to visit, because the targets have at most one
    entry or the cutoff [max_k()] is zero or negative, [calc_swap_deltas]
    calls [evaluate] on the targets as given only, and returns the zero
    matrix, whatever [evaluate] would do on other rankings. *)
Theorem calc_swap_deltas_no_pairs (m : Metric) q (targets : loc) (h : heap)
    (t : list R) (v : R) :
  h !! targets = Some t ->
  evaluate m q t = Ok v ->
  (length t <= 1 ∨ exists k, max_k m = Some k ∧ (k <= 0)%Z) ->
  calc_swap_deltas m q targets h = (h, Ok (zeros2 (length t) (length t))).
Proof.
  intros Hr Hev Hnone. unfold calc_swap_deltas.
  rewrite (bind_ok _ _ _ _ _ (load_run _ _ _ Hr)).
  rewrite (bind_ok (lift (evaluate m q t)) _ h h v) by (unfold lift; by rewrite Hev).
  apply swap_loops_no_pairs; [|apply effective_k_le].
  destruct Hnone as [Hn|(k & Hk & Hle)]; [by right|left].
  unfold effective_k. rewrite Hk.
  destruct (Z.ltb_spec (Z.of_nat (length t)) k); lia.
Qed.

Lemma calc_swap_deltas_no_pairs_witness :
  calc_swap_deltas top_relevance 7%Z 0 {[ 0 := [1]%R ]}
  = ({[ 0 := [1]%R ]}, Ok (zeros2 1 1)).
Proof.
  apply (calc_swap_deltas_no_pairs top_relevance 7%Z 0 {[ 0 := [1]%R ]} [1]%R 1%R).
  - apply lookup_singleton_eq.
  - reflexivity.
  - left. cbn. lia.
Defined.

(** X3. For an [evaluate] that returns, exchanging two equal targets changes
    nothing: the entry (i, j) of the matrix is zero whenever
    [targets[i] == targets[j]]. *)
Theorem calc_swap_deltas_equal_items ev mk q (targets : loc) (h : heap)
    (t : list R) (i j : nat) :
  h !! targets = Some t ->
  i < length t -> j < length t -> t !! i = t !! j ->
  exists D,
    calc_swap_deltas (total_metric ev mk) q targets h = (h, Ok D) ∧
    mat_get D i j = Ok 0%R.
Proof.
  intros Hr Hi Hj Heq.
  destruct (calc_swap_deltas_total ev mk q targets h t Hr) as (D & Hrun & _ & Hget).
  exists D. split; [done|]. rewrite (Hget i j Hi Hj). f_equal.
  case_decide; [|done]. unfold swap_delta. rewrite (exchange_same t i j Heq). lra.
Qed.

Lemma calc_swap_deltas_equal_items_witness :
  exists D,
    calc_swap_deltas top_relevance 7%Z 0 {[ 0 := [1; 0; 1]%R ]}
    = ({[ 0 := [1; 0; 1]%R ]}, Ok D) ∧
    mat_get D 0 2 = Ok 0%R.
Proof.
  apply (calc_swap_deltas_equal_items (fun _ t => nth 0 t 0%R) (Some 1%Z) 7%Z 0
           {[ 0 := [1; 0; 1]%R ]} [1; 0; 1]%R 0 2).
  - apply lookup_singleton_eq.
  - cbn. lia.
  - cbn. lia.
  - reflexivity.
Defined.

(** X4. Whatever [evaluate] does and however [calc_swap_deltas] ends, the
    targets array holds a permutation of what it held, and no other array
    of the store is touched. *)
Theorem calc_swap_deltas_only_permutes (m : Metric) q (targets : loc) (h : heap)
    (t : list R) :
  h !! targets = Some t ->
  (exists t', (calc_swap_deltas m q targets h).1 !! targets = Some t' ∧ t' ≡ₚ t) ∧
  forall r, r ≠ targets -> (calc_swap_deltas m q targets h).1 !! r = h !! r.
Proof.
  intros Hr.
  destruct (calc_swap_deltas_outcome m q targets h t Hr)
    as [(e0 & _ & Hout)|[(D & Hout & _)|(i & j & e0 & _ & _ & Hout)]];
    rewrite Hout; cbn [fst]; split; try done.
  - by exists t.
  - by exists t.
  - exists (exchange t i j). split; [apply lookup_insert_eq|apply exchange_perm].
  - intros r Hne. by rewrite lookup_insert_ne.
Qed.

Lemma calc_swap_deltas_only_permutes_witness :
  (exists t', (calc_swap_deltas picky_metric 7%Z 0 {[ 0 := [0; 1]%R ]}).1 !! 0 = Some t'
              ∧ t' ≡ₚ [0; 1]%R) ∧
  forall r, r ≠ 0 ->
    (calc_swap_deltas picky_metric 7%Z 0 {[ 0 := [0; 1]%R ]}).1 !! r
    = ({[ 0 := [0; 1]%R ]} : heap) !! r.
Proof.
  apply (calc_swap_deltas_only_permutes picky_metric 7%Z 0 {[ 0 := [0; 1]%R ]} [0; 1]%R).
  apply lookup_singleton_eq.
Defined.

(** X5. When all targets are equal there is no preference to learn: for an
    [evaluate] that returns, whether or not it keeps the sign convention,
    [calc_lambdas_deltas] returns all-zero lambdas and deltas. *)
Theorem calc_lambdas_deltas_equal_targets
    (pos : list R -> list R -> list nat) ev mk q (targets preds : loc)
    (h : heap) (t p : list R) (c : R) :
  (forall t p, length t = length p -> pos t p ≡ₚ seq 0 (length t)) ->
  h !! targets = Some t -> h !! preds = Some p -> length t = length p ->
  (forall x, x ∈ t -> x = c) ->
  (calc_lambdas_deltas pos (total_metric ev mk) q targets preds h).2
  = Ok (zeros (length t), zeros (length t)).
Proof.
  intros Hpos Ht Hp Hlen Hall.
  assert (forall i j, considered mk (length t) i j ->
            nth i ((λ a, nth a t 0%R) <$> pos t p) 0%R
            = nth j ((λ a, nth a t 0%R) <$> pos t p) 0%R) as Heq.
  { intros i j [_ Hij].
    rewrite (Hall _ (actual_nth_elem_of pos Hpos t p Hlen i ltac:(lia))).
    by rewrite (Hall _ (actual_nth_elem_of pos Hpos t p Hlen j ltac:(lia))). }
  rewrite (calc_lambdas_deltas_total_ok pos Hpos ev mk q targets preds h t p Ht Hp Hlen).
  - cbn [snd]. f_equal. apply spec_lambdas_deltas_skip. intros i j Hc. left. by apply Heq.
  - intros i j Hc (Hne & _). by apply Hne, Heq.
Qed.

Lemma calc_lambdas_deltas_equal_targets_witness :
  (calc_lambdas_deltas argsort_desc (total_metric negated_top_relevance (Some 1%Z))
     7%Z 0 1 (<[0 := [1; 1]%R]> {[ 1 := [2; 1]%R ]})).2
  = Ok (zeros 2, zeros 2).
Proof.
  apply (calc_lambdas_deltas_equal_targets argsort_desc negated_top_relevance
           (Some 1%Z) 7%Z 0 1 (<[0 := [1; 1]%R]> {[ 1 := [2; 1]%R ]})
           [1; 1]%R [2; 1]%R 1%R).
  - apply argsort_desc_perm.
  - apply lookup_insert_eq.
  - by rewrite lookup_insert_ne, lookup_singleton_eq.
  - reflexivity.
  - intros x Hx. repeat (apply elem_of_cons in Hx as [->|Hx]; [done|]).
    by apply elem_of_nil in Hx.
Defined.

(** X6. For a metric that does not depend on the order of the targets,
    [calc_lambdas_deltas] returns all-zero lambdas and deltas: every swap
    delta is zero, so no pair contributes. *)
Theorem calc_lambdas_deltas_order_insensitive
    (pos : list R -> list R -> list nat) ev mk q (targets preds : loc)
    (h : heap) (t p : list R) :
  (forall t p, length t = length p -> pos t p ≡ₚ seq 0 (length t)) ->
  h !! targets = Some t -> h !! preds = Some p -> length t = length p ->
  (forall t', t' ≡ₚ t -> ev q t' = ev q t) ->
  (calc_lambdas_deltas pos (total_metric ev mk) q targets preds h).2
  = Ok (zeros (length t), zeros (length t)).
Proof.
  intros Hpos Ht Hp Hlen Hinv.
  assert (forall i j,
            swap_delta ev q ((λ a, nth a t 0%R) <$> pos t p) i j = 0%R) as Hz.
  { intros i j. unfold swap_delta.
    rewrite (Hinv (exchange _ i j)), (Hinv ((λ a, nth a t 0%R) <$> pos t p)).
    - lra.
    - by apply actual_perm.
    - rewrite exchange_perm. by apply actual_perm. }
  rewrite (calc_lambdas_deltas_total_ok pos Hpos ev mk q targets preds h t p Ht Hp Hlen).
  - cbn [snd]. f_equal. apply spec_lambdas_deltas_skip. intros i j _. right. apply Hz.
  - intros i j Hc (_ & Hne & _). by apply Hne, Hz.
Qed.

Lemma calc_lambdas_deltas_order_insensitive_witness :
  (calc_lambdas_deltas argsort_desc (total_metric (fun _ t => sum_list t) None)
     7%Z 0 1 example_heap).2
  = Ok (zeros 2, zeros 2).
Proof.
  apply (calc_lambdas_deltas_order_insensitive argsort_desc (fun _ t => sum_list t)
           None 7%Z 0 1 example_heap example_targets example_preds).
  - apply argsort_desc_perm.
  - apply example_lookup_targets.
  - apply example_lookup_preds.
  - reflexivity.
  - intros t' Ht'. apply sum_list_perm, Ht'.
Defined.

(** X7. [calc_lambdas_deltas] never writes to an array the caller holds:
    whatever the metric and the sorting utility do, and whether the call
    returns or raises, every array that was in the store (targets, preds and
    all others) holds afterwards what it held before. *)
Theorem calc_lambdas_deltas_writes_nothing (pos : list R -> list R -> list nat)
    (m : Metric) q (targets preds : loc) (h : heap) (r : loc) :
  is_Some (h !! r) ->
  (calc_lambdas_deltas pos m q targets preds h).1 !! r = h !! r.
Proof. apply calc_lambdas_deltas_frame_any. Qed.

Lemma calc_lambdas_deltas_writes_nothing_witness :
  (calc_lambdas_deltas argsort_desc picky_metric 7%Z 0 1 example_heap).1 !! 1
  = example_heap !! 1.
Proof.
  apply (calc_lambdas_deltas_writes_nothing argsort_desc picky_metric 7%Z 0 1
           example_heap 1).
  rewrite example_lookup_preds. by eexists.
Defined.

(** X8. For every metric and every sorting utility: when
    [calc_lambdas_deltas] returns, both vectors have as many entries as
    there are targets. *)
Theorem calc_lambdas_deltas_lengths (pos : list R -> list R -> list nat)
    (m : Metric) q (targets preds : loc) (h h' : heap) (t lambdas deltas : list R) :
  h !! targets = Some t ->
  calc_lambdas_deltas pos m q targets preds h = (h', Ok (lambdas, deltas)) ->
  length lambdas = length t ∧ length deltas = length t.
Proof.
  intros Ht Hrun.
  destruct (calc_lambdas_deltas_ok_inv _ _ _ _ _ _ _ _ _ Ht Hrun)
    as (p & act & sd & _ & _ & Hloops).
  by destruct (lambda_loops_pure_inv _ _ _ _ _ _ _ _ Hloops) as (_ & _ & ? & ?).
Qed.

Lemma calc_lambdas_deltas_lengths_witness :
  length (spec_lambdas_deltas (fun _ t => nth 0 t 0%R) (Some 1%Z) 7%Z
            (argsort_desc example_targets example_preds)
            example_targets example_preds).1 = length example_targets ∧
  length (spec_lambdas_deltas (fun _ t => nth 0 t 0%R) (Some 1%Z) 7%Z
            (argsort_desc example_targets example_preds)
            example_targets example_preds).2 = length example_targets.
Proof.
  eapply (calc_lambdas_deltas_lengths argsort_desc top_relevance 7%Z 0 1 example_heap).
  - apply example_lookup_targets.
  - rewrite example_run. f_equal. f_equal. apply surjective_pairing.
Defined.

(** X9. For every metric and every sorting utility: when
    [calc_lambdas_deltas] returns, an item whose target is the largest of
    all has a lambda that is not negative, and an item whose target is the
    smallest of all has a lambda that is not positive. *)
Theorem lambdas_of_extreme_items (pos : list R -> list R -> list nat)
    (m : Metric) q (targets preds : loc) (h h' : heap) (t lambdas deltas : list R)
    (x : nat) (tx : R) :
  h !! targets = Some t ->
  calc_lambdas_deltas pos m q targets preds h = (h', Ok (lambdas, deltas)) ->
  t !! x = Some tx ->
  exists lx, lambdas !! x = Some lx ∧
    ((forall y, y ∈ t -> (y <= tx)%R) -> (0 <= lx)%R) ∧
    ((forall y, y ∈ t -> (tx <= y)%R) -> (lx <= 0)%R).
Proof.
  intros Ht Hrun Hx.
  destruct (calc_lambdas_deltas_ok_inv _ _ _ _ _ _ _ _ _ Ht Hrun)
    as (p & act & sd & _ & Hfi & Hloops).
  destruct (lambda_loops_pure_inv _ _ _ _ _ _ _ _ Hloops) as (_ & _ & Hlen & _).
  destruct (lookup_lt_is_Some_2 lambdas x) as [lx Hlx];
    [rewrite Hlen; by eapply lookup_lt_Some|].
  destruct (lambda_loops_pure_extreme t _ _ _ _ _ _ _ _ x tx
              (fancy_index_lookup _ _ _ Hfi) Hx Hloops) as [Hmax Hmin].
  exists lx. split_and!; [done| |]; intros Hext; eauto.
Qed.

Lemma lambdas_of_extreme_items_witness :
  exists lx,
    (spec_lambdas_deltas (fun _ t => nth 0 t 0%R) (Some 1%Z) 7%Z
       (argsort_desc example_targets example_preds)
       example_targets example_preds).1 !! 1 = Some lx ∧
    ((forall y, y ∈ example_targets -> (y <= 1)%R) -> (0 <= lx)%R) ∧
    ((forall y, y ∈ example_targets -> (1 <= y)%R) -> (lx <= 0)%R).
Proof.
  eapply (lambdas_of_extreme_items argsort_desc top_relevance 7%Z 0 1 example_heap).
  - apply example_lookup_targets.
  - rewrite example_run. f_equal. f_equal. apply surjective_pairing.
  - reflexivity.
Defined.

(** X11. On a corpus of two queries, [calc_mean] is the plain average of the
    two values of [evaluate_preds], however many rows each query has; an
    exception of the first query's evaluation comes first. *)
Theorem calc_mean_two_queries (get_sorted_y : list R -> list R -> result (list R))
    (m : Metric) (q1 q2 : qid) (n1 n2 : nat) (t1 p1 t2 p2 : list R) :
  q1 ≠ q2 ->
  length t1 = S n1 -> length p1 = S n1 ->
  length t2 = S n2 -> length p2 = S n2 ->
  calc_mean get_sorted_y m (replicate (S n1) q1 ++ replicate (S n2) q2)
    (t1 ++ t2) (p1 ++ p2)
  = match evaluate_preds get_sorted_y m q1 t1 p1,
          evaluate_preds get_sorted_y m q2 t2 p2 with
    | Ok v1, Ok v2 => Ok ((v1 + v2) / 2)%R
    | Ok _, Raise e => Raise e
    | Raise e, _ => Raise e
    end.
Proof.
  intros Hne Ht1 Hp1 Ht2 Hp2. unfold calc_mean, check_qids.
  rewrite (contiguous_two _ _ _ _ Hne), (get_groups_two _ _ _ _ Hne).
  cbn [try_map].
  rewrite !slice_app_l, !slice_app_r by done.
  destruct (evaluate_preds get_sorted_y m q1 t1 p1) as [v1|e1]; [|done].
  destruct (evaluate_preds get_sorted_y m q2 t2 p2) as [v2|e2]; [|done].
  f_equal. unfold mean. cbn. lra.
Qed.

Lemma calc_mean_two_queries_witness :
  calc_mean sorted_by top_relevance (replicate 1 4%Z ++ replicate 3 5%Z)
    ([1]%R ++ [0; 1; 1]%R) ([9]%R ++ [1; 3; 2]%R)
  = match evaluate_preds sorted_by top_relevance 4%Z [1]%R [9]%R,
          evaluate_preds sorted_by top_relevance 5%Z [0; 1; 1]%R [1; 3; 2]%R with
    | Ok v1, Ok v2 => Ok ((v1 + v2) / 2)%R
    | Ok _, Raise e => Raise e
    | Raise e, _ => Raise e
    end.
Proof.
  apply (calc_mean_two_queries sorted_by top_relevance 4%Z 5%Z 0 2); done.
Defined.

(** X12. On a corpus whose rows all carry the one qid [q],
    [calc_mean_random] is [calc_random_ev] of that query: the same value,
    the same state of the generator and of the store afterwards, and the
    same exception when there is one. *)
Theorem calc_mean_random_single_query (rng : Type)
    (shuffle : rng -> list R -> rng * list R)
    (m : Metric) (q : qid) (n : nat) (targets : loc) (g : rng) (h : heap)
    (t : list R) :
  h !! targets = Some t -> length t = S n ->
  calc_mean_random rng shuffle m (replicate (S n) q) targets g h
  = calc_random_ev rng shuffle m q targets g h.
Proof.
  intros Ht Hlen. unfold calc_mean_random, check_qids.
  rewrite contiguous_replicate.
  rewrite (bind_ok (lift (Ok tt)) _ h h tt eq_refl).
  cbn [replicate get_groups]. rewrite groups_from_replicate.
  change (1 + n) with (S n). rewrite <- Hlen. cbn [for_items].
  unfold bind. cbv beta iota.
  rewrite (calc_random_ev_view_all _ _ _ _ _ _ _ _ Ht).
  destruct (calc_random_ev rng shuffle m q targets g h) as [h' [[v g']|e]]; [|done].
  unfold ret. cbn [fst snd app]. by rewrite mean_singleton.
Qed.

Lemma calc_mean_random_single_query_witness :
  calc_mean_random nat rotate_shuffle top_relevance (replicate 2 7%Z) 0 3 example_heap
  = calc_random_ev nat rotate_shuffle top_relevance 7%Z 0 3 example_heap.
Proof.
  apply (calc_mean_random_single_query nat rotate_shuffle top_relevance 7%Z 1 0 3
           example_heap example_targets).
  - apply example_lookup_targets.
  - reflexivity.
Defined.

(** X13. [calc_mean_random] never writes to an array the caller holds: the
    shuffles work on copies of the groups' rows. Whatever the metric does,
    and whether the call returns or raises, every array that was in the
    store holds afterwards what it held before. *)
Theorem calc_mean_random_writes_nothing (rng : Type)
    (shuffle : rng -> list R -> rng * list R)
    (m : Metric) (qids : list Z) (targets : loc) (g : rng) (h : heap) (r : loc) :
  is_Some (h !! r) ->
  (calc_mean_random rng shuffle m qids targets g h).1 !! r = h !! r.
Proof.
  intros Hr.
  destruct (calc_mean_random rng shuffle m qids targets g h) as [h' res] eqn:Hrun.
  exact (calc_mean_random_frame _ _ _ _ _ _ _ _ _ Hrun r Hr).
Qed.

Lemma calc_mean_random_writes_nothing_witness :
  (calc_mean_random nat rotate_shuffle picky_metric [1; 1]%Z 0 3 example_heap).1 !! 0
  = example_heap !! 0.
Proof.
  apply (calc_mean_random_writes_nothing nat rotate_shuffle picky_metric [1; 1]%Z
           0 3 example_heap 0).
  rewrite example_lookup_targets. by eexists.
Defined.

(** X15. A query without pairs gives no gradient: when there is at most
    one item, or the cutoff [max_k()] is zero or negative, and [evaluate]
    returns on the targets in rank order, [calc_lambdas_deltas] returns
    all-zero lambdas and deltas, whatever [evaluate] would do on other
    rankings. *)
Theorem calc_lambdas_deltas_no_pairs (pos : list R -> list R -> list nat)
    (m : Metric) q (targets preds : loc) (h : heap) (t p : list R) (v : R) :
  (forall t p, length t = length p -> pos t p ≡ₚ seq 0 (length t)) ->
  h !! targets = Some t -> h !! preds = Some p -> length t = length p ->
  evaluate m q ((λ a, nth a t 0%R) <$> pos t p) = Ok v ->
  (length t <= 1 ∨ exists k, max_k m = Some k ∧ (k <= 0)%Z) ->
  (calc_lambdas_deltas pos m q targets preds h).2
  = Ok (zeros (length t), zeros (length t)).
Proof.
  intros Hpos Ht Hp Hlen Hev Hnone.
  pose proof (calc_lambdas_deltas_run pos m q targets preds h t p Ht Hp) as Hrun.
  rewrite (fancy_index_ok t (pos t p) (positions_lt pos Hpos t p Hlen)) in Hrun.
  set (act := (λ a, nth a t 0%R) <$> pos t p) in *.
  assert (length act = length t) as Hact
    by (unfold act; rewrite length_fmap; by apply positions_length).
  assert (effective_k m (length t) = 0 ∨ length t <= 1) as Hk.
  { destruct Hnone as [Hn|(k & Hk & Hle)]; [by right|left].
    by eapply effective_k_nonpositive. }
  rewrite (swap_deltas_without_pairs m q _ _ act v (lookup_insert_eq _ _ _) Hev)
    in Hrun by (by rewrite Hact).
  destruct Hrun as (_ & _ & ->). cbn [snd].
  apply lambda_loops_pure_no_pairs; [done|apply effective_k_le].
Qed.

Lemma calc_lambdas_deltas_no_pairs_witness :
  (calc_lambdas_deltas argsort_desc top_relevance 7%Z 0 1
     (<[0 := [1]%R]> {[ 1 := [3]%R ]})).2
  = Ok (zeros 1, zeros 1).
Proof.
  apply (calc_lambdas_deltas_no_pairs argsort_desc top_relevance 7%Z 0 1
           (<[0 := [1]%R]> {[ 1 := [3]%R ]}) [1]%R [3]%R
           (nth 0 ((λ a, nth a [1]%R 0%R) <$> argsort_desc [1]%R [3]%R) 0%R)).
  - apply argsort_desc_perm.
  - apply lookup_insert_eq.
  - by rewrite lookup_insert_ne, lookup_singleton_eq.
  - reflexivity.
  - reflexivity.
  - left. cbn. lia.
Defined.
